(** * twitterstream: the record reader of stream.go

    A shallow embedding of [src/stream.go] (package [twitterstream]) and the
    properties of its [Stream] type: [Open], [fatal], [Close], [Err], [Next]
    and [UnmarshalNext].

    The Go code talks to four collaborators that are not part of the package:
    the HTTP transport ([http.PostForm]), the OAuth signer
    ([oauth.Client.SignParam]), the buffered reader over the response body
    ([bufio.Reader], [ioutil.ReadAll], [io.ReadCloser.Close]) and the JSON
    decoder ([json.Unmarshal]).  They are interfaces here: a type class for
    the response body with its buffered reader, Section variables for the
    others.  Every call the package makes on the body or the decoder is
    recorded in a ghost [trace], newest call first, so that "reads nothing",
    "closes once" and "decodes nothing" are statements about that trace. *)

From Stdlib Require Import ZArith Lia String Ascii.
From Stdlib.Strings Require Import Byte.
From stdpp Require Import gmap strings list fin_maps pretty.

Local Open Scope Z_scope.

(** ** Errors *)

(** [HTTPStatusError] of stream.go: the status code and the response body. *)
Record HTTPStatusError := mkHTTPStatusError {
  StatusCode : Z;
  Message : string
}.

(** [func (err HTTPStatusError) Error() string] *)
Definition HTTPStatusError_Error (e : HTTPStatusError) : string :=
  ("twitterstream: status=" +:+ pretty (StatusCode e) +:+ " " +:+ Message e)%string.

(** A non-nil value of Go's [error] interface.  A nil [error] is [None] of
    [option error]. *)
Inductive error : Type :=
| EOF                                  (* io.EOF *)
| ErrBufferFull                        (* bufio.ErrBufferFull *)
| ErrExternal (msg : string)           (* any other error of a collaborator *)
| ErrHTTPStatus (e : HTTPStatusError). (* HTTPStatusError as an error *)

Global Instance byte_eq_dec : EqDecision byte := Byte.byte_eq_dec.

Global Instance HTTPStatusError_eq_dec : EqDecision HTTPStatusError.
Proof. solve_decision. Defined.

Global Instance error_eq_dec : EqDecision error.
Proof. solve_decision. Defined.

(** The delimiter of [ts.r.ReadSlice('\r')]: carriage return, 0x0d. *)
Definition CR : byte := x0d.

(** Go's [len] on a byte slice. *)
Definition len (p : list byte) : Z := Z.of_nat (length p).

(** [string(p)] on a byte slice. *)
Definition string_of_bytes (p : list byte) : string := string_of_list_byte p.

(** ** The response body and its buffered reader *)

(** The calls the package makes on its collaborators. *)
Inductive Event : Type :=
| EvReadSlice                  (* ts.r.ReadSlice('\r') *)
| EvReadAll                    (* ioutil.ReadAll(ts.r) *)
| EvClose                      (* ts.body.Close() *)
| EvUnmarshal (p : list byte). (* json.Unmarshal(p, data) *)

Global Instance Event_eq_dec : EqDecision Event.
Proof. solve_decision. Defined.

(** Number of [Close] calls, and of reads, recorded in a trace. *)
Fixpoint count_close (t : list Event) : nat :=
  match t with
  | [] => O
  | EvClose :: t' => S (count_close t')
  | _ :: t' => count_close t'
  end.

Fixpoint count_read (t : list Event) : nat :=
  match t with
  | [] => O
  | EvReadSlice :: t' => S (count_read t')
  | EvReadAll :: t' => S (count_read t')
  | _ :: t' => count_read t'
  end.

(** [W] is the state of one response body together with the [bufio.Reader]
    that [Open] wraps around it: [ts.body] and [ts.r] are two handles on
    this one object. *)
Class BufferedBody (W : Type) := {
  (* bufio.Reader.ReadSlice(delim): the slice, the error, the new state *)
  ReadSlice : byte -> W -> list byte * option error * W;
  (* ioutil.ReadAll on the reader *)
  ReadAll : W -> list byte * option error * W;
  (* io.ReadCloser.Close on the body *)
  body_Close : W -> option error * W
}.


(** ** The Stream type and its methods *)

(** [type Stream struct].  [body] is [None] while [ts.body] is nil.  [ts.r]
    is the reader over the same body and is set together with it, so the one
    field stands for both handles.  [trace] is the ghost record of calls. *)
Record Stream (W : Type) := mkStream {
  chunkRemaining : Z;
  chunkState : Z;
  body : option W;
  err : option error;
  trace : list Event
}.
Arguments mkStream {W}.
Arguments chunkRemaining {W}.
Arguments chunkState {W}.
Arguments body {W}.
Arguments err {W}.
Arguments trace {W}.

(** What a method call comes to: it returns [a] and leaves the stream in
    state [ts]; it panics (a nil [body] or [r] is dereferenced); or the loop
    of [Next] has not returned within the iterations it was given. *)
Inductive result (W A : Type) : Type :=
| Done (a : A) (ts : Stream W)
| Panic
| OutOfFuel.
Arguments Done {W A}.
Arguments Panic {W A}.
Arguments OutOfFuel {W A}.

(** Two stream states with the same body and the same sticky error (they
    may differ in the ghost trace), and two outcomes that return the same
    values in such states. *)
Definition same_state {W : Type} (a b : Stream W) : Prop :=
  body a = body b ∧ err a = err b.

Definition same_outcome {W A : Type} (x y : result W A) : Prop :=
  match x, y with
  | Done a s, Done b t => a = b ∧ same_state s t
  | Panic, Panic => True
  | OutOfFuel, OutOfFuel => True
  | _, _ => False
  end.

Section StreamMethods.
Context {W : Type} `{!BufferedBody W}.

(** The target of a decode and [json.Unmarshal(p, data)], which writes
    into the target and returns an error or nil. *)
Context {Data : Type}.
Variable Unmarshal : list byte -> Data -> Data * option error.

(** [new(Stream)]: every field zero. *)
Definition new_Stream : Stream W := mkStream 0 0 None None [].

Definition set_body (b : option W) (ts : Stream W) : Stream W :=
  mkStream (chunkRemaining ts) (chunkState ts) b (err ts) (trace ts).

Definition set_err (e : option error) (ts : Stream W) : Stream W :=
  mkStream (chunkRemaining ts) (chunkState ts) (body ts) e (trace ts).

Definition log (ev : Event) (ts : Stream W) : Stream W :=
  mkStream (chunkRemaining ts) (chunkState ts) (body ts) (err ts)
           (ev :: trace ts).

(** [func (ts *Stream) fatal(err error) error] *)
Definition fatal (e : error) (ts : Stream W) : error * Stream W :=
  let ts1 :=
    match body ts with
    | Some w => let '(_, w') := body_Close w in
                log EvClose (set_body (Some w') ts)
    | None => ts
    end in
  let ts2 :=
    match err ts1 with
    | None => set_err (Some e) ts1
    | Some _ => ts1
    end in
  (e, ts2).

(** [func (ts *Stream) Close() error] *)
Definition Close (ts : Stream W) : result W (option error) :=
  match err ts with
  | Some e => Done (Some e) ts
  | None =>
      match body ts with
      | Some w => let '(ce, w') := body_Close w in
                  Done ce (log EvClose (set_body (Some w') ts))
      | None => Panic
      end
  end.

(** [func (ts *Stream) Err() error] *)
Definition Err (ts : Stream W) : option error := err ts.

(** The [for] loop of [Next], run for at most [fuel] iterations. *)
Fixpoint Next_loop (fuel : nat) (ts : Stream W)
  : result W (list byte * option error) :=
  match fuel with
  | O => OutOfFuel
  | S fuel' =>
      match body ts with
      | None => Panic
      | Some w =>
          let '(p, e, w') := ReadSlice CR w in
          let ts1 := log EvReadSlice (set_body (Some w') ts) in
          match e with
          | Some e' =>
              let '(e'', ts2) := fatal e' ts1 in Done ([], Some e'') ts2
          | None =>
              if len p <=? 2 then Next_loop fuel' ts1
              else Done (p, None) ts1
          end
      end
  end.

(** [func (ts *Stream) Next() ([]byte, error)].  A nil slice is [[]]. *)
Definition Next (fuel : nat) (ts : Stream W)
  : result W (list byte * option error) :=
  match err ts with
  | Some e => Done ([], Some e) ts
  | None => Next_loop fuel ts
  end.

(** [func (ts *Stream) UnmarshalNext(data interface{}) error]: the target
    after the call and the error returned. *)
Definition UnmarshalNext (fuel : nat) (data : Data) (ts : Stream W)
  : result W (Data * option error) :=
  match Next fuel ts with
  | Done (p, Some e) ts' => Done (data, Some e) ts'
  | Done (p, None) ts' =>
      let '(data', de) := Unmarshal p data in
      Done (data', de) (log (EvUnmarshal p) ts')
  | Panic => Panic
  | OutOfFuel => OutOfFuel
  end.

(** [n] reads in a row that each return, without error, a slice of at
    most two bytes: the state of the body after them, if that is how the
    next [n] reads go. *)
Fixpoint skip_keepalives (n : nat) (w : W) : option W :=
  match n with
  | O => Some w
  | S n' =>
      let '(p, e, w') := ReadSlice CR w in
      match e with
      | Some _ => None
      | None => if len p <=? 2 then skip_keepalives n' w' else None
      end
  end.

(** *** Sequences of calls on one Stream *)

Inductive Op : Type :=
| OpNext (fuel : nat)
| OpUnmarshalNext (fuel : nat) (data : Data)
| OpErr
| OpClose.

Inductive Ret : Type :=
| RetNext (p : list byte) (e : option error)
| RetUnmarshalNext (data : Data) (e : option error)
| RetErr (e : option error)
| RetClose (e : option error).

Definition call (op : Op) (ts : Stream W) : result W Ret :=
  match op with
  | OpNext fuel =>
      match Next fuel ts with
      | Done (p, e) ts' => Done (RetNext p e) ts'
      | Panic => Panic
      | OutOfFuel => OutOfFuel
      end
  | OpUnmarshalNext fuel data =>
      match UnmarshalNext fuel data ts with
      | Done (d, e) ts' => Done (RetUnmarshalNext d e) ts'
      | Panic => Panic
      | OutOfFuel => OutOfFuel
      end
  | OpErr => Done (RetErr (Err ts)) ts
  | OpClose =>
      match Close ts with
      | Done e ts' => Done (RetClose e) ts'
      | Panic => Panic
      | OutOfFuel => OutOfFuel
      end
  end.

Fixpoint calls (ops : list Op) (ts : Stream W) : result W (list Ret) :=
  match ops with
  | [] => Done [] ts
  | op :: ops' =>
      match call op ts with
      | Done r ts' =>
          match calls ops' ts' with
          | Done rs ts'' => Done (r :: rs) ts''
          | Panic => Panic
          | OutOfFuel => OutOfFuel
          end
      | Panic => Panic
      | OutOfFuel => OutOfFuel
      end
  end.

(** What each call answers on a stream whose sticky error is [e]. *)
Definition failed_answer (e : error) (op : Op) : Ret :=
  match op with
  | OpNext _ => RetNext [] (Some e)
  | OpUnmarshalNext _ data => RetUnmarshalNext data (Some e)
  | OpErr => RetErr (Some e)
  | OpClose => RetClose (Some e)
  end.

(** How a call of [Next] on an open stream can end: with a slice longer
    than two bytes, the stream still open and nothing closed; or with the
    error of a read that has just failed, which is now the sticky error,
    the body having been closed right after that read. *)
Inductive Next_ends (ts : Stream W) : list byte * option error → Stream W → Prop :=
| ends_record p ts' :
    2 < len p → err ts' = None →
    count_close (trace ts') = count_close (trace ts) →
    is_Some (body ts') →
    Next_ends ts (p, None) ts'
| ends_failed e ts' t :
    err ts' = Some e →
    trace ts' = EvClose :: EvReadSlice :: t →
    count_close (trace ts') = S (count_close (trace ts)) →
    Next_ends ts ([], Some e) ts'.

End StreamMethods.

(** ** Open *)

(** [url.Values], a [map[string][]string].  Go maps are reference values:
    the caller's [params] and the copy [pcopy] are two addresses in a store
    of maps, and signing writes to the map at the address it is given. *)
Abbreviation Values := (gmap string (list string)).
Abbreviation store := (gmap nat (gmap string (list string))).

(** The part of [*http.Response] that [Open] uses. *)
Record Response (W : Type) := mkResponse {
  resp_StatusCode : Z;
  resp_Body : W
}.
Arguments mkResponse {W}.
Arguments resp_StatusCode {W}.
Arguments resp_Body {W}.

(** What a call of [Open] comes to: the two values it returns, the state in
    which it leaves the [Stream] object it allocated (returned or not), the
    store of maps, and the form it posted. *)
Record OpenResult (W : Type) := mkOpenResult {
  ret_stream : option (Stream W);
  ret_err : option error;
  ts_final : Stream W;
  store_final : store;
  posted : Values
}.
Arguments mkOpenResult {W}.
Arguments ret_stream {W}.
Arguments ret_err {W}.
Arguments ts_final {W}.
Arguments store_final {W}.
Arguments posted {W}.

Section Connector.
Context {W : Type} `{!BufferedBody W}.
Context {Client Credentials : Type}.

(** [oauthClient.SignParam(accessToken, method, urlStr, form)]: the
    contents of [form] after the call, from its contents before. *)
Variable SignParam : Client -> Credentials -> string -> string -> Values -> Values.

(** [http.PostForm(urlStr, form)]: a response or a transport error. *)
Variable PostForm : string -> Values -> Response W + error.

(** The loop [for key, values := range params { pcopy[key] = values }],
    writing to the map at address [pcopy] of the store. *)
Definition copy_params (params pcopy : nat) (h : store) : store :=
  map_fold (λ key values h', <[pcopy := <[key := values]> (h' !!! pcopy)]> h')
           h (h !!! params).

(** The block "Setup request body" of [Open]: [pcopy] is a new map, the
    entries of [params] are copied into it and it is signed in place.
    The store afterwards and the address of [pcopy]. *)
Definition setup_request_body (oauthClient : Client) (accessToken : Credentials)
    (urlStr : string) (params : nat) (h : store) : store * nat :=
  let pcopy := fresh (dom h) in
  let h1 := <[pcopy := ∅]> h in
  let h2 := copy_params params pcopy h1 in
  (<[pcopy := SignParam oauthClient accessToken "POST" urlStr (h2 !!! pcopy)]> h2,
   pcopy).

(** The signed form that [Open] hands to [http.PostForm]: the contents of
    [pcopy] after the setup. *)
Definition request_form (oauthClient : Client) (accessToken : Credentials)
    (urlStr : string) (params : nat) (h : store) : Values :=
  let '(h', pcopy) := setup_request_body oauthClient accessToken urlStr params h in
  h' !!! pcopy.

(** [func Open(oauthClient, accessToken, urlStr, params)], returning a
    [Stream] pointer and an [error]. *)
Definition Open (oauthClient : Client) (accessToken : Credentials)
    (urlStr : string) (params : nat) (h : store) : OpenResult W :=
  let ts := new_Stream in
  let '(h', pcopy) := setup_request_body oauthClient accessToken urlStr params h in
  let form := h' !!! pcopy in
  match PostForm urlStr form with
  | inr e =>
      let '(e', ts') := fatal e ts in
      mkOpenResult None (Some e') ts' h' form
  | inl resp =>
      let ts1 := set_body (Some (resp_Body resp)) ts in
      if bool_decide (resp_StatusCode resp ≠ 200) then
        let '(p, _, w') := ReadAll (resp_Body resp) in
        let ts2 := log EvReadAll (set_body (Some w') ts1) in
        mkOpenResult None
          (Some (ErrHTTPStatus
                   (mkHTTPStatusError (resp_StatusCode resp) (string_of_bytes p))))
          ts2 h' form
      else mkOpenResult (Some ts1) None ts1 h' form
  end.

End Connector.

(** ** A response body as a finite byte stream *)

(** An instance of [BufferedBody]: the body will still deliver the bytes
    [pending] and then fail every read with [fail] ([EOF] for a clean end);
    [Close] answers [close_err].  [error_with_data] tells how the body
    reports [fail]: together with its last bytes, in one [Read], or in a
    [Read] of its own after them; [io.Reader] allows both.  The reader is the
    [bufio.Reader] of size 8192 that [Open] creates, by the documented
    contract of [ReadSlice]: the bytes up to and including the first
    delimiter; all remaining bytes and the read error when the input ends
    before a delimiter; the buffer's worth of bytes and [ErrBufferFull] when
    the buffer fills first.  [ReadSlice] looks for a pending read error
    before it looks whether the buffer is full, so when exactly a buffer's
    worth of bytes without delimiter is left, the answer is the body's error
    if it came with the last bytes and [ErrBufferFull] otherwise. *)
Module Wire.

Definition bufSize : Z := 8192.

Record t := Body {
  pending : list byte;
  fail : error;
  close_err : option error;
  error_with_data : bool
}.

(** A body that reports its error in a [Read] of its own. *)
Abbreviation mk pending fail close_err := (Body pending fail close_err false).

(** The bytes up to and including the first [delim], and the rest. *)
Fixpoint cut (delim : byte) (l : list byte) : option (list byte * list byte) :=
  match l with
  | [] => None
  | b :: l' =>
      if bool_decide (b = delim) then Some ([b], l')
      else match cut delim l' with
           | Some (line, rest) => Some (b :: line, rest)
           | None => None
           end
  end.

Definition buffer_full (w : t) : list byte * option error * t :=
  (take (Z.to_nat bufSize) (pending w), Some ErrBufferFull,
   Body (drop (Z.to_nat bufSize) (pending w)) (fail w) (close_err w)
        (error_with_data w)).

Definition end_of_body (w : t) : list byte * option error * t :=
  (pending w, Some (fail w), Body [] (fail w) (close_err w) (error_with_data w)).

Definition readSlice (delim : byte) (w : t) : list byte * option error * t :=
  match cut delim (pending w) with
  | Some (line, rest) =>
      if len line <=? bufSize
      then (line, None, Body rest (fail w) (close_err w) (error_with_data w))
      else buffer_full w
  | None =>
      if len (pending w) <? bufSize then end_of_body w
      else if (len (pending w) =? bufSize) && error_with_data w then end_of_body w
      else buffer_full w
  end.

(** [ioutil.ReadAll]: everything up to the end; [EOF] is not an error. *)
Definition readAll (w : t) : list byte * option error * t :=
  (pending w,
   match fail w with EOF => None | e => Some e end,
   Body [] (fail w) (close_err w) (error_with_data w)).

Definition close (w : t) : option error * t := (close_err w, w).

#[global] Instance buffered_body : BufferedBody t :=
  {| ReadSlice := readSlice; ReadAll := readAll; body_Close := close |}.

(** The open stream that [Open] returns on status 200 with this body. *)
Definition stream (data : list byte) (e : error) : Stream t :=
  set_body (Some (mk data e None)) new_Stream.

End Wire.

(** ** Records and keepalives on the wire *)

Definition bytes (s : string) : list byte := list_byte_of_string s.

(** One delimited unit of the body: a record with its payload, or a
    keepalive marker with its bytes (delimiter included). *)
Inductive Item : Type :=
| Rec (payload : list byte)
| Keepalive (k : list byte).

(** A record that [Next] can return: no delimiter inside, at least two
    bytes of payload, and short enough to fit the reader's buffer together
    with its delimiter. *)
Definition valid_record (r : list byte) : Prop :=
  (CR ∉ r) ∧ (2 <= len r) ∧ (len r < Wire.bufSize).

(** A keepalive marker: the delimiter alone, or one other byte and the
    delimiter (the line feed of a CR LF pair). *)
Definition keepalive_marker (k : list byte) : Prop :=
  match k with
  | [c] => c = CR
  | [b; c] => b ≠ CR ∧ c = CR
  | _ => False
  end.

Definition valid_item (it : Item) : Prop :=
  match it with
  | Rec r => valid_record r
  | Keepalive k => keepalive_marker k
  end.

Definition encode (it : Item) : list byte :=
  match it with
  | Rec r => r ++ [CR]
  | Keepalive k => k
  end.

Definition wire_of (items : list Item) : list byte :=
  concat (map encode items).

Fixpoint records (items : list Item) : list (list byte) :=
  match items with
  | [] => []
  | Rec r :: items' => r :: records items'
  | Keepalive _ :: items' => records items'
  end.

(** What [Next] returns for the record [r]: its bytes and the delimiter
    that [ReadSlice] leaves at the end of the slice, and a nil error. *)
Definition with_delimiter (r : list byte) : list byte * option error :=
  (r ++ [CR], None).

(** [n] successive calls of [Next] and what each returned. *)
Fixpoint Next_n {W : Type} `{!BufferedBody W} (fuel n : nat) (ts : Stream W)
  : result W (list (list byte * option error)) :=
  match n with
  | O => Done [] ts
  | S n' =>
      match Next fuel ts with
      | Done r ts' =>
          match Next_n fuel n' ts' with
          | Done rs ts'' => Done (r :: rs) ts''
          | Panic => Panic
          | OutOfFuel => OutOfFuel
          end
      | Panic => Panic
      | OutOfFuel => OutOfFuel
      end
  end.

(** A decoder for the examples: it accepts a line that starts with an
    opening brace and stores it in the target, and rejects any other line
    with the target untouched. *)
Definition brace_Unmarshal (p : list byte) (data : list byte)
  : list byte * option error :=
  match p with
  | "{"%byte :: _ => (p, None)
  | _ => (data, Some (ErrExternal "invalid character"))
  end.

(** ** Inputs of the examples *)

(** The double quote, and the two JSON lines of the examples: an object
    with a [text] field and an object with an [id] field. *)
Definition quote : byte := x22.

Definition json_text (s : string) : list byte :=
  bytes "{" ++ [quote] ++ bytes "text" ++ [quote] ++ bytes ":" ++
  [quote] ++ bytes s ++ [quote] ++ bytes "}".

Definition json_id (s : string) : list byte :=
  bytes "{" ++ [quote] ++ bytes "id" ++ [quote] ++ bytes ":" ++ bytes s ++ bytes "}".

(** A signer that adds one OAuth field, and an endpoint that answers every
    request with the given status and body. *)
Definition example_SignParam (_ _ : unit) (_ _ : string) (form : Values) : Values :=
  <["oauth_signature" := ["c2ln"]]> form.

Definition endpoint (status : Z) (data : list byte)
  : string → Values → Response Wire.t + error :=
  λ _ _, inl (mkResponse status (Wire.mk data EOF None)).

Definition example_url : string :=
  "https://stream.twitter.com/1/statuses/filter.json".

(** The caller's store in the examples: one map, at address 0. *)
Definition example_store : store := {[ 0%nat := {[ "track" := ["golang"] ]} ]}.

(** A stream on an empty body after the call of [Next] that met its end. *)
Definition failed_stream : Stream Wire.t :=
  (fatal EOF (log EvReadSlice (Wire.stream [] EOF))).2.

(** ** The loop of the package comment *)

Section Usage.
Context {W : Type} `{!BufferedBody W}.
Context {Data : Type}.
Variable Unmarshal : list byte -> Data -> Data * option error.

(** The consumer that the package comment gives as the way to use a stream:
    [for ts.Err() == nil { var t MyTweet; if err := ts.UnmarshalNext(&t);
    err != nil { log; continue }; process(&t) }; ts.Close()].  [zero] is the
    fresh target of each round, [processed] the values handed to [process]
    so far, oldest first; the outcome carries them and what [Close]
    returned.  The loop runs for at most [rounds] tests of [ts.Err()]. *)
Fixpoint consume (rounds fuel : nat) (zero : Data) (processed : list Data)
    (ts : Stream W) : result W (list Data * option error) :=
  match rounds with
  | O => OutOfFuel
  | S rounds' =>
      match Err ts with
      | Some _ =>
          match Close ts with
          | Done ce ts' => Done (processed, ce) ts'
          | Panic => Panic
          | OutOfFuel => OutOfFuel
          end
      | None =>
          match UnmarshalNext Unmarshal fuel zero ts with
          | Done (t, Some _) ts' => consume rounds' fuel zero processed ts'
          | Done (t, None) ts' => consume rounds' fuel zero (processed ++ [t]) ts'
          | Panic => Panic
          | OutOfFuel => OutOfFuel
          end
      end
  end.

(** What [UnmarshalNext] answers for the line [p] and the target [data]. *)
Definition decode_ret (p : list byte) (data : Data) : Ret :=
  let '(data', de) := Unmarshal p data in RetUnmarshalNext data' de.

(** The value that the consumer processes for the line [p], if it decodes. *)
Definition decode_ok (zero : Data) (p : list byte) : option Data :=
  match Unmarshal p zero with
  | (t, None) => Some t
  | (_, Some _) => None
  end.

End Usage.

(** A string with no space in it. *)
Fixpoint no_space (s : string) : Prop :=
  match s with
  | EmptyString => True
  | String c s' => c ≠ " "%char ∧ no_space s'
  end.

(** Proves that a list of items of the examples is valid. *)
Ltac valid_items :=
  repeat (apply Forall_cons_2; [|]); try apply Forall_nil; simpl;
  try reflexivity;
  try (split; [apply (bool_decide_unpack _); vm_compute; exact I
              | split; [apply Z.leb_le | apply Z.ltb_lt]; reflexivity]);
  try (split; [discriminate | reflexivity]).

(** * Properties *)

(** ** The failed state *)

Section StreamFacts.
Context {W : Type} `{!BufferedBody W}.
Context {Data : Type}.
Variable Unmarshal : list byte -> Data -> Data * option error.

Lemma fatal_returns (e : error) (ts : Stream W) : (fatal e ts).1 = e.
Proof. reflexivity. Qed.

Lemma fatal_keeps_err (e e' : error) (ts : Stream W) :
  err ts = Some e → err (fatal e' ts).2 = Some e.
Proof.
  intros He. unfold fatal.
  destruct (body ts) as [w|]; [destruct (body_Close w) as [ce w']|];
    simpl; rewrite He; simpl; exact He.
Qed.

Lemma fatal_sets_err (e : error) (ts : Stream W) :
  err ts = None → err (fatal e ts).2 = Some e.
Proof.
  intros He. unfold fatal.
  destruct (body ts) as [w|]; [destruct (body_Close w) as [ce w']|];
    simpl; rewrite He; reflexivity.
Qed.

Lemma fatal_closes_body (e : error) (ts : Stream W) (w : W) :
  body ts = Some w →
  trace (fatal e ts).2 = EvClose :: trace ts ∧
  body (fatal e ts).2 = Some (body_Close w).2.
Proof.
  intros Hb. unfold fatal. rewrite Hb.
  destruct (body_Close w) as [ce w']; simpl.
  destruct (err ts); simpl; auto.
Qed.

Lemma Next_failed (fuel : nat) (ts : Stream W) (e : error) :
  err ts = Some e → Next fuel ts = Done ([], Some e) ts.
Proof. intros He. unfold Next. rewrite He. reflexivity. Qed.

Lemma call_failed (op : Op) (ts : Stream W) (e : error) :
  err ts = Some e → call Unmarshal op ts = Done (failed_answer e op) ts.
Proof.
  intros He. destruct op as [fuel|fuel d| |]; simpl.
  - rewrite (Next_failed _ _ _ He). reflexivity.
  - unfold UnmarshalNext. rewrite (Next_failed _ _ _ He). reflexivity.
  - unfold Err. rewrite He. reflexivity.
  - unfold Close. rewrite He. reflexivity.
Qed.

Lemma calls_failed (ops : list Op) (ts : Stream W) (e : error) :
  err ts = Some e →
  calls Unmarshal ops ts = Done (failed_answer e <$> ops) ts.
Proof.
  intros He. induction ops as [|op ops IH]; simpl; [reflexivity|].
  rewrite (call_failed _ _ _ He), IH. reflexivity.
Qed.

(** ** One call of Next *)

Lemma Next_loop_S (fuel : nat) (ts : Stream W) :
  Next_loop (S fuel) ts =
  match body ts with
  | None => Panic
  | Some w =>
      let '(p, e, w') := ReadSlice CR w in
      let ts1 := log EvReadSlice (set_body (Some w') ts) in
      match e with
      | Some e' => let '(e'', ts2) := fatal e' ts1 in Done ([], Some e'') ts2
      | None => if len p <=? 2 then Next_loop fuel ts1 else Done (p, None) ts1
      end
  end.
Proof. reflexivity. Qed.

Lemma Next_loop_ends (fuel : nat) : ∀ (ts ts' : Stream W) r,
  err ts = None → Next_loop fuel ts = Done r ts' → Next_ends ts r ts'.
Proof.
  induction fuel as [|fuel IH]; intros ts ts' r He H; [discriminate|].
  rewrite Next_loop_S in H.
  destruct (body ts) as [w|] eqn:Hb; [|discriminate].
  destruct (ReadSlice CR w) as [[p e] w'] eqn:Hr.
  cbv zeta in H.
  set (ts1 := log EvReadSlice (set_body (Some w') ts)) in *.
  destruct e as [e|].
  - pose proof (fatal_sets_err e ts1 He) as Hs.
    pose proof (fatal_closes_body e ts1 w' eq_refl) as [Ht _].
    pose proof (fatal_returns e ts1) as Hret.
    destruct (fatal e ts1) as [e'' ts2].
    simpl in Hret, Hs, Ht. subst e''. inversion H; subst.
    eapply ends_failed; [exact Hs | exact Ht |].
    rewrite Ht. reflexivity.
  - destruct (len p <=? 2) eqn:Hl.
    + apply IH in H; [|exact He].
      inversion H; subst.
      * apply ends_record; auto.
      * eapply ends_failed; eauto.
    + inversion H; subst.
      apply ends_record;
        [apply Z.leb_gt; exact Hl | exact He | reflexivity | eexists; reflexivity].
Qed.

Lemma Next_ends_open (fuel : nat) (ts ts' : Stream W) r :
  err ts = None → Next fuel ts = Done r ts' → Next_ends ts r ts'.
Proof.
  intros He H. unfold Next in H. rewrite He in H.
  eapply Next_loop_ends; eauto.
Qed.

(** More iterations do not change a call that has returned. *)
Lemma Next_loop_more (fuel : nat) : ∀ (ts ts' : Stream W) r (k : nat),
  Next_loop fuel ts = Done r ts' → Next_loop (fuel + k) ts = Done r ts'.
Proof.
  induction fuel as [|fuel IH]; intros ts ts' r k H; simpl in *; [discriminate|].
  destruct (body ts) as [w|]; [|discriminate].
  destruct (ReadSlice CR w) as [[p e] w'].
  destruct e as [e|]; [exact H|].
  destruct (len p <=? 2); [apply IH; exact H | exact H].
Qed.

(** The ghost trace has no influence on what a call does. *)
Lemma Next_loop_same (fuel : nat) : ∀ (ts ts2 : Stream W),
  same_state ts ts2 → same_outcome (Next_loop fuel ts) (Next_loop fuel ts2).
Proof.
  induction fuel as [|fuel IH]; intros ts ts2 [Hb He]; simpl; [exact I|].
  rewrite <- Hb. destruct (body ts) as [w|]; [|exact I].
  destruct (ReadSlice CR w) as [[p e] w'].
  destruct e as [e|].
  - unfold fatal, log, set_body, set_err; simpl.
    destruct (body_Close w') as [ce w'']; simpl.
    rewrite <- He. destruct (err ts); simpl; repeat split; auto.
  - destruct (len p <=? 2).
    + apply IH. split; simpl; auto.
    + simpl. repeat split; auto.
Qed.

Lemma Next_same (fuel : nat) (ts ts2 : Stream W) :
  same_state ts ts2 → same_outcome (Next fuel ts) (Next fuel ts2).
Proof.
  intros Hs. pose proof Hs as [Hb He]. unfold Next. rewrite <- He.
  destruct (err ts); [simpl; auto | apply Next_loop_same; exact Hs].
Qed.


(** A stream that has a body keeps it, and its methods do not panic. *)
Lemma Next_loop_keeps_body (fuel : nat) : ∀ (ts : Stream W),
  is_Some (body ts) →
  match Next_loop fuel ts with
  | Done _ ts' => is_Some (body ts')
  | Panic => False
  | OutOfFuel => True
  end.
Proof.
  induction fuel as [|fuel IH]; intros ts [w Hb]; [exact I|].
  rewrite Next_loop_S, Hb.
  destruct (ReadSlice CR w) as [[p e] w']. cbv zeta.
  destruct e as [e|].
  - pose proof (fatal_closes_body e (log EvReadSlice (set_body (Some w') ts))
                  w' eq_refl) as [_ Hb'].
    destruct (fatal e (log EvReadSlice (set_body (Some w') ts))) as [e' ts2].
    simpl in Hb'. rewrite Hb'. eauto.
  - destruct (len p <=? 2).
    + apply IH. simpl. eauto.
    + simpl. eauto.
Qed.

Lemma call_keeps_body (op : Op) (ts : Stream W) :
  is_Some (body ts) →
  match call Unmarshal op ts with
  | Done _ ts' => is_Some (body ts')
  | Panic => False
  | OutOfFuel => True
  end.
Proof.
  intros Hb. destruct op as [fuel|fuel d| |]; simpl.
  - unfold Next. destruct (err ts) as [e|]; [exact Hb|].
    pose proof (Next_loop_keeps_body fuel ts Hb) as H.
    destruct (Next_loop fuel ts) as [[p e] ts'| |]; exact H.
  - unfold UnmarshalNext, Next. destruct (err ts) as [e|]; [exact Hb|].
    pose proof (Next_loop_keeps_body fuel ts Hb) as H.
    destruct (Next_loop fuel ts) as [[p [e|]] ts'| |]; try exact H.
    destruct (Unmarshal p d) as [d' de]. exact H.
  - exact Hb.
  - unfold Close. destruct (err ts) as [e|]; [exact Hb|].
    destruct Hb as [w Hb]. rewrite Hb.
    destruct (body_Close w) as [ce w']. simpl. eauto.
Qed.

Lemma calls_keep_body (ops : list Op) : ∀ (ts : Stream W),
  is_Some (body ts) →
  match calls Unmarshal ops ts with
  | Done _ ts' => is_Some (body ts')
  | Panic => False
  | OutOfFuel => True
  end.
Proof.
  induction ops as [|op ops IH]; intros ts Hb; simpl; [exact Hb|].
  pose proof (call_keeps_body op ts Hb) as H.
  destruct (call Unmarshal op ts) as [r ts1| |]; try exact H.
  pose proof (IH ts1 H) as H'.
  destruct (calls Unmarshal ops ts1) as [rs ts2| |]; exact H'.
Qed.

(** ** The claims on the state machine *)

(** C2. Once the sticky error is [e], it stays [e]: [fatal] does not
    overwrite it, every call of [Next] returns [e] and leaves the stream,
    ghost trace included, exactly as it was (so no read is made on the
    body), and so does every sequence of calls of [Next], [UnmarshalNext],
    [Err] and [Close]. *)
Theorem sticky_error_is_permanent (ts : Stream W) (e : error) :
  err ts = Some e →
  (∀ e', (fatal e' ts).1 = e' ∧ err (fatal e' ts).2 = Some e) ∧
  (∀ fuel, Next fuel ts = Done ([], Some e) ts) ∧
  (∀ ops, calls Unmarshal ops ts = Done (failed_answer e <$> ops) ts).
Proof.
  intros He. split; [|split].
  - intros e'. split; [apply fatal_returns | apply fatal_keeps_err; exact He].
  - intros fuel. apply Next_failed; exact He.
  - intros ops. apply calls_failed; exact He.
Qed.

Lemma skip_then_Next_loop (n : nat) : ∀ (k : nat) (ts : Stream W) (w w1 : W),
  body ts = Some w → skip_keepalives n w = Some w1 →
  ∃ ts1, Next_loop (n + k) ts = Next_loop k ts1 ∧
         body ts1 = Some w1 ∧ err ts1 = err ts ∧
         count_read (trace ts1) = (n + count_read (trace ts))%nat ∧
         count_close (trace ts1) = count_close (trace ts).
Proof.
  induction n as [|n IH]; intros k ts w w1 Hb Hs; simpl in Hs.
  - inversion Hs; subst. exists ts. auto.
  - replace (S n + k)%nat with (S (n + k)) by reflexivity.
    rewrite Next_loop_S, Hb.
    destruct (ReadSlice CR w) as [[p e] w'].
    destruct e as [e|]; [discriminate|].
    destruct (len p <=? 2); [|discriminate].
    cbv zeta.
    destruct (IH k (log EvReadSlice (set_body (Some w') ts)) w' w1 eq_refl Hs)
      as (ts1 & Heq & Hb1 & He1 & Hr1 & Hc1).
    exists ts1. rewrite Heq. repeat split; auto.
    rewrite Hr1. simpl. lia.
Qed.

Lemma Next_never_short (fuel : nat) (ts ts' : Stream W) r :
  Next fuel ts = Done r ts' → r.1 = [] ∨ 2 < len r.1.
Proof.
  intros H. destruct (err ts) as [e|] eqn:He.
  - rewrite (Next_failed _ _ _ He) in H. inversion H; subst. left; reflexivity.
  - apply Next_ends_open in H; [|exact He].
    inversion H; subst; [right | left]; auto.
Qed.

Lemma Next_skips_short (fuel : nat) (ts : Stream W) w p w' :
  err ts = None → body ts = Some w →
  ReadSlice CR w = (p, None, w') → len p <= 2 →
  Next (S fuel) ts = Next fuel (log EvReadSlice (set_body (Some w') ts)).
Proof.
  intros He Hb Hr Hl.
  unfold Next at 1. rewrite He, Next_loop_S, Hb, Hr. cbv zeta.
  apply Z.leb_le in Hl. rewrite Hl.
  unfold Next. simpl. rewrite He. reflexivity.
Qed.

Lemma Next_returns_long (fuel : nat) (ts : Stream W) w p w' :
  err ts = None → body ts = Some w →
  ReadSlice CR w = (p, None, w') → 2 < len p →
  Next (S fuel) ts = Done (p, None) (log EvReadSlice (set_body (Some w') ts)).
Proof.
  intros He Hb Hr Hl.
  unfold Next. rewrite He, Next_loop_S, Hb, Hr. cbv zeta.
  apply Z.leb_gt in Hl. rewrite Hl. reflexivity.
Qed.

Lemma Next_more (fuel k : nat) (ts ts' : Stream W) r :
  Next fuel ts = Done r ts' → Next (fuel + k) ts = Done r ts'.
Proof.
  unfold Next. destruct (err ts); [auto | apply Next_loop_more].
Qed.

Lemma Next_n_S (fuel n : nat) (ts : Stream W) :
  Next_n fuel (S n) ts =
  match Next fuel ts with
  | Done r ts' =>
      match Next_n fuel n ts' with
      | Done rs ts'' => Done (r :: rs) ts''
      | Panic => Panic
      | OutOfFuel => OutOfFuel
      end
  | Panic => Panic
  | OutOfFuel => OutOfFuel
  end.
Proof. reflexivity. Qed.

Lemma Next_n_more (fuel k n : nat) : ∀ (ts ts' : Stream W) rs,
  Next_n fuel n ts = Done rs ts' → Next_n (fuel + k) n ts = Done rs ts'.
Proof.
  induction n as [|n IH]; intros ts ts' rs H; [exact H|].
  rewrite Next_n_S in *.
  destruct (Next fuel ts) as [r ts1| |] eqn:HN; try discriminate.
  rewrite (Next_more _ k _ _ _ HN).
  destruct (Next_n fuel n ts1) as [rs1 ts2| |] eqn:HI; try discriminate.
  rewrite (IH _ _ _ HI). exact H.
Qed.

(** The first [n] of [n+1] calls. *)
Lemma Next_n_init (fuel n : nat) : ∀ (ts ts' : Stream W) rs,
  Next_n fuel (S n) ts = Done rs ts' →
  ∃ rs0 x ts0, rs = rs0 ++ [x] ∧ Next_n fuel n ts = Done rs0 ts0.
Proof.
  induction n as [|n IH]; intros ts ts' rs H.
  - rewrite Next_n_S in H.
    destruct (Next fuel ts) as [r ts1| |]; try discriminate.
    simpl in H. inversion H; subst. exists [], r, ts. auto.
  - rewrite Next_n_S in H.
    destruct (Next fuel ts) as [r ts1| |] eqn:HN; try discriminate.
    destruct (Next_n fuel (S n) ts1) as [rs1 ts2| |] eqn:HI; try discriminate.
    inversion H; subst.
    destruct (IH _ _ _ HI) as (rs0 & x & ts0 & -> & H0).
    exists (r :: rs0), x, ts0. split; [reflexivity|].
    rewrite Next_n_S, HN, H0. reflexivity.
Qed.

(** C4. A slice of at most two bytes is never returned: a call of [Next]
    that returns ends with a slice longer than two bytes or with an
    error, which is then the sticky error.  A short slice read without
    error is dropped and the loop goes on with the next read.  And the
    number of slices dropped by one call has no bound: whatever [n], when
    the next [n] reads return short slices, a call of [Next] makes all of
    them and answers with what read [n+1] gives, a longer slice or a
    failure. *)
Theorem keepalives_are_skipped :
  (∀ fuel (ts ts' : Stream W) r,
      Next fuel ts = Done r ts' →
      (∃ p, r = (p, None) ∧ 2 < len p) ∨
      (∃ e, r = ([], Some e) ∧ err ts' = Some e)) ∧
  (∀ fuel (ts : Stream W) w p w',
      err ts = None → body ts = Some w →
      ReadSlice CR w = (p, None, w') → len p <= 2 →
      Next (S fuel) ts = Next fuel (log EvReadSlice (set_body (Some w') ts))) ∧
  (∀ (n k : nat) (ts : Stream W) w w1 p e w2,
      err ts = None → body ts = Some w →
      skip_keepalives n w = Some w1 →
      ReadSlice CR w1 = (p, e, w2) → (e = None → 2 < len p) →
      ∃ ts', Next (n + S k) ts =
             Done (match e with Some _ => [] | None => p end, e) ts' ∧
             count_read (trace ts') = (S n + count_read (trace ts))%nat).
Proof.
  split; [|split].
  - intros fuel ts ts' r H.
    destruct (err ts) as [e|] eqn:He.
    + rewrite (Next_failed _ _ _ He) in H. inversion H; subst.
      right. exists e. auto.
    + apply Next_ends_open in H; [|exact He].
      inversion H; subst; [left | right]; eauto.
  - intros fuel ts w p w' He Hb Hr Hl.
    eapply Next_skips_short; eauto.
  - intros n k ts w w1 p e w2 He Hb Hs Hr Hp.
    destruct (skip_then_Next_loop n (S k) ts w w1 Hb Hs)
      as (ts1 & Heq & Hb1 & He1 & Hr1 & Hc1).
    unfold Next. rewrite He, Heq, Next_loop_S, Hb1, Hr. cbv zeta.
    destruct e as [e|].
    + pose proof (fatal_returns e (log EvReadSlice (set_body (Some w2) ts1))) as Hret.
      pose proof (fatal_closes_body e (log EvReadSlice (set_body (Some w2) ts1))
                    w2 eq_refl) as [Ht _].
      destruct (fatal e (log EvReadSlice (set_body (Some w2) ts1))) as [e'' ts2].
      simpl in Hret, Ht. subst e''. exists ts2. split; [reflexivity|].
      rewrite Ht. simpl. rewrite Hr1. reflexivity.
    + specialize (Hp eq_refl). apply Z.leb_gt in Hp. rewrite Hp.
      eexists. split; [reflexivity|]. simpl. rewrite Hr1. reflexivity.
Qed.

(** C5, in the form that holds of the code.  When a read made by [Next] on
    an open stream fails with [e] (after any number [n] of skipped short
    slices), the call returns [e] with a nil slice, [e] is the sticky error,
    the body has been closed right after the failed read and that is one
    more close than before; every later [Next], [UnmarshalNext], [Err] and
    [Close] answers [e] and leaves the stream, trace included, as it is, so
    the body is not closed again.  When it had never been closed before the
    failure it has been closed exactly once, for good. *)
Theorem read_failure_is_terminal (n k : nat) (ts : Stream W) w w1 p (e : error) w2 :
  err ts = None →
  body ts = Some w →
  skip_keepalives n w = Some w1 →
  ReadSlice CR w1 = (p, Some e, w2) →
  ∃ ts', Next (n + S k) ts = Done ([], Some e) ts' ∧
         err ts' = Some e ∧ Err ts' = Some e ∧
         body ts' = Some (body_Close w2).2 ∧
         (∃ t, trace ts' = EvClose :: EvReadSlice :: t) ∧
         count_close (trace ts') = S (count_close (trace ts)) ∧
         (∀ ops, calls Unmarshal ops ts' = Done (failed_answer e <$> ops) ts') ∧
         (count_close (trace ts) = 0%nat →
          ∀ ops, ∃ rs ts'', calls Unmarshal ops ts' = Done rs ts'' ∧
                            count_close (trace ts'') = 1%nat).
Proof.
  intros He Hb Hs Hr.
  destruct (skip_then_Next_loop n (S k) ts w w1 Hb Hs)
    as (ts1 & Heq & Hb1 & He1 & Hr1 & Hc1).
  rewrite He in He1.
  set (ts2 := log EvReadSlice (set_body (Some w2) ts1)).
  pose proof (fatal_returns e ts2) as Hret.
  pose proof (fatal_sets_err e ts2 He1) as Hse.
  pose proof (fatal_closes_body e ts2 w2 eq_refl) as [Ht Hbody].
  assert (HN : Next (n + S k) ts = Done ([], Some e) (fatal e ts2).2).
  { unfold Next. rewrite He, Heq, Next_loop_S, Hb1, Hr. cbv zeta. fold ts2.
    destruct (fatal e ts2) as [e'' ts3]. simpl in Hret. subst e''. reflexivity. }
  assert (Hc : count_close (trace (fatal e ts2).2) = S (count_close (trace ts))).
  { rewrite Ht. simpl. rewrite Hc1. reflexivity. }
  exists (fatal e ts2).2. repeat split; auto.
  - exists (trace ts1). exact Ht.
  - intros ops. apply calls_failed. exact Hse.
  - intros H0 ops. exists (failed_answer e <$> ops), (fatal e ts2).2.
    split; [apply calls_failed; exact Hse | rewrite Hc, H0; reflexivity].
Qed.

(** C6. [Close] on a stream whose sticky error is [e] returns [e] and
    leaves the stream, trace included, as it is: the body is not closed.
    [Close] on a stream with no sticky error closes the body exactly once
    and returns what that close returned; no sticky error is set. *)
Theorem Close_spec (ts : Stream W) :
  (∀ e, err ts = Some e → Close ts = Done (Some e) ts) ∧
  (∀ w, err ts = None → body ts = Some w →
        ∃ ts', Close ts = Done (body_Close w).1 ts' ∧
               trace ts' = EvClose :: trace ts ∧
               count_close (trace ts') = S (count_close (trace ts)) ∧
               body ts' = Some (body_Close w).2 ∧
               err ts' = None).
Proof.
  split.
  - intros e He. unfold Close. rewrite He. reflexivity.
  - intros w He Hb. unfold Close. rewrite He, Hb.
    destruct (body_Close w) as [ce w']. eexists. split; [reflexivity|].
    simpl. auto.
Qed.

(** C7. When [Next] inside [UnmarshalNext] returns a line and its decode
    fails, the decode error is what [UnmarshalNext] returns; no sticky
    error is set, the body is the one [Next] left and nothing is closed;
    the following [Next] or [UnmarshalNext] does what it would have done
    had the line been read by [Next] alone.  When [Next] fails, its error
    is returned, the target is untouched and no decode is recorded. *)
Theorem decode_error_is_recoverable (fuel : nat) (data : Data) (ts ts1 : Stream W) :
  (∀ p data' de,
      Next fuel ts = Done (p, None) ts1 →
      Unmarshal p data = (data', Some de) →
      ∃ ts2, UnmarshalNext Unmarshal fuel data ts = Done (data', Some de) ts2 ∧
             err ts2 = None ∧ Err ts2 = None ∧ body ts2 = body ts1 ∧
             trace ts2 = EvUnmarshal p :: trace ts1 ∧
             count_close (trace ts2) = count_close (trace ts) ∧
             (∀ fuel', same_outcome (Next fuel' ts2) (Next fuel' ts1)) ∧
             (∀ fuel' d, same_outcome (UnmarshalNext Unmarshal fuel' d ts2)
                                      (UnmarshalNext Unmarshal fuel' d ts1))) ∧
  (∀ p e,
      Next fuel ts = Done (p, Some e) ts1 →
      UnmarshalNext Unmarshal fuel data ts = Done (data, Some e) ts1).
Proof.
  split.
  - intros p data' de HN HU.
    assert (Hopen : err ts = None ∧ err ts1 = None ∧
                    count_close (trace ts1) = count_close (trace ts)).
    { destruct (err ts) as [e|] eqn:He.
      - rewrite (Next_failed _ _ _ He) in HN. discriminate.
      - apply Next_ends_open in HN; [|reflexivity || exact He].
        inversion HN; subst. auto. }
    destruct Hopen as (He & He1 & Hc1).
    exists (log (EvUnmarshal p) ts1).
    assert (Hsame : same_state (log (EvUnmarshal p) ts1) ts1) by (split; reflexivity).
    unfold UnmarshalNext at 1. rewrite HN, HU.
    repeat split; auto.
    + intros fuel'. apply Next_same. exact Hsame.
    + intros fuel' d. unfold UnmarshalNext.
      pose proof (Next_same fuel' _ _ Hsame) as HS.
      destruct (Next fuel' (log (EvUnmarshal p) ts1)) as [[q [eq|]] s| |];
        destruct (Next fuel' ts1) as [[q' [eq'|]] s'| |]; simpl in HS;
        try contradiction; try exact I.
      * destruct HS as [Heq Hst]. inversion Heq; subst. split; [reflexivity|exact Hst].
      * destruct HS as [Heq _]. discriminate.
      * destruct HS as [Heq _]. discriminate.
      * destruct HS as [Heq Hst]. inversion Heq; subst.
        destruct (Unmarshal q' d) as [d' de']. simpl.
        split; [reflexivity|]. destruct Hst as [Hb' He']. split; simpl; auto.
  - intros p e HN. unfold UnmarshalNext. rewrite HN. reflexivity.
Qed.

End StreamFacts.

(** ** Records on a finite byte stream *)

Section WireFacts.
Variables (f : error) (ce : option error).

Lemma len_app (p q : list byte) : len (p ++ q) = len p + len q.
Proof. unfold len. rewrite length_app. lia. Qed.

Lemma cut_record (r rest : list byte) :
  (CR ∉ r) → Wire.cut CR (r ++ CR :: rest) = Some (r ++ [CR], rest).
Proof.
  induction r as [|b r IH]; intros Hn; simpl.
  - reflexivity.
  - apply not_elem_of_cons in Hn as [Hb Hr].
    case_bool_decide; [congruence|].
    rewrite (IH Hr). reflexivity.
Qed.

Lemma readSlice_record (r rest : list byte) :
  valid_record r →
  Wire.readSlice CR (Wire.mk (r ++ CR :: rest) f ce)
  = (r ++ [CR], None, Wire.mk rest f ce).
Proof.
  intros (Hn & Hlo & Hhi). unfold Wire.readSlice; simpl.
  rewrite (cut_record r rest Hn).
  assert (Hl : (len (r ++ [CR]) <=? Wire.bufSize) = true).
  { apply Z.leb_le. rewrite len_app. unfold len at 2; simpl. lia. }
  rewrite Hl. reflexivity.
Qed.

Lemma readSlice_keepalive (k rest : list byte) :
  keepalive_marker k →
  Wire.readSlice CR (Wire.mk (k ++ rest) f ce) = (k, None, Wire.mk rest f ce)
  ∧ len k <= 2.
Proof.
  intros Hk. destruct k as [|b [|c [|d k]]]; simpl in Hk; try contradiction.
  - subst b. split; [reflexivity | unfold len; simpl; lia].
  - destruct Hk as [Hb ->]. split; [|unfold len; simpl; lia].
    unfold Wire.readSlice; simpl.
    case_bool_decide; [congruence|]. reflexivity.
Qed.

Lemma readSlice_end :
  Wire.readSlice CR (Wire.mk [] f ce) = ([], Some f, Wire.mk [] f ce).
Proof. reflexivity. Qed.

Lemma len_record (r : list byte) : valid_record r → (len (r ++ [CR]) <=? 2) = false.
Proof.
  intros (_ & Hlo & _). apply Z.leb_gt. rewrite len_app. unfold len at 2; simpl. lia.
Qed.

(** Calling [Next] once more than there are records: the records, each
    with its delimiter, and then the error that ends the body. *)
Lemma Next_n_items (items : list Item) : ∀ (fuel : nat) (ts : Stream Wire.t),
  Forall valid_item items →
  body ts = Some (Wire.mk (wire_of items) f ce) → err ts = None →
  (length items < fuel)%nat →
  ∃ ts', Next_n fuel (S (length (records items))) ts
         = Done ((with_delimiter <$> records items) ++ [([], Some f)]) ts'
         ∧ err ts' = Some f.
Proof.
  induction items as [|it items IH]; intros fuel ts Hv Hb He Hf.
  - destruct fuel as [|fuel]; [simpl in Hf; lia|].
    simpl. unfold Next. rewrite He, Next_loop_S, Hb. simpl.
    eexists. split; [reflexivity|]. simpl. rewrite He. reflexivity.
  - inversion Hv as [|? ? Hit Hv']; subst.
    destruct fuel as [|fuel]; [simpl in Hf; lia|]. simpl in Hf.
    set (ts1 := log EvReadSlice (set_body (Some (Wire.mk (wire_of items) f ce)) ts)).
    assert (Hb1 : body ts1 = Some (Wire.mk (wire_of items) f ce)) by reflexivity.
    assert (He1 : err ts1 = None) by exact He.
    destruct it as [r|k]; simpl in Hit.
    + assert (HN : Next (S fuel) ts = Done (with_delimiter r) ts1).
      { apply Next_returns_long with (w := Wire.mk (wire_of (Rec r :: items)) f ce);
          [exact He | exact Hb | | ].
        - unfold wire_of; simpl. rewrite <- app_assoc. simpl.
          apply readSlice_record. exact Hit.
        - apply Z.leb_gt. apply len_record. exact Hit. }
      destruct (IH (S fuel) ts1 Hv' Hb1 He1 ltac:(lia)) as (ts' & HI & He').
      exists ts'. split; [|exact He'].
      change (records (Rec r :: items)) with (r :: records items).
      change (length (r :: records items)) with (S (length (records items))).
      rewrite Next_n_S, HN, HI. reflexivity.
    + destruct (readSlice_keepalive k (wire_of items) Hit) as [Hr Hl].
      assert (HN : Next (S fuel) ts = Next fuel ts1).
      { apply Next_skips_short
          with (p := k) (w := Wire.mk (wire_of (Keepalive k :: items)) f ce);
          [exact He | exact Hb | exact Hr | exact Hl]. }
      destruct (IH fuel ts1 Hv' Hb1 He1 ltac:(lia)) as (ts' & HI & He').
      exists ts'. split; [|exact He'].
      change (records (Keepalive k :: items)) with (records items).
      rewrite Next_n_S in *. rewrite HN.
      destruct (Next fuel ts1) as [x ts2| |]; try discriminate.
      destruct (Next_n fuel (length (records items)) ts2) as [rs ts3| |] eqn:Hn;
        try discriminate.
      replace (S fuel) with (fuel + 1)%nat by lia.
      rewrite (Next_n_more _ 1 _ _ _ _ Hn). exact HI.
Qed.

End WireFacts.

(** C1, in the form that holds of the code.  For a body made of valid
    records, each followed by the delimiter, with any keepalive markers
    between them, successive calls of [Next] return the records in order,
    each slice being the record's bytes followed by the delimiter; the call
    after the last record returns the error that ends the body. *)
Theorem Next_returns_records_in_order (items : list Item) (f : error)
    (fuel : nat) (ts : Stream Wire.t) (ce : option error) :
  Forall valid_item items →
  body ts = Some (Wire.mk (wire_of items) f ce) →
  err ts = None →
  (length items < fuel)%nat →
  (∃ ts', Next_n fuel (length (records items)) ts
          = Done (with_delimiter <$> records items) ts') ∧
  (∃ ts', Next_n fuel (S (length (records items))) ts
          = Done ((with_delimiter <$> records items) ++ [([], Some f)]) ts').
Proof.
  intros Hv Hb He Hf.
  destruct (Next_n_items f ce items fuel ts Hv Hb He Hf) as (ts' & HN & _).
  split; [|exists ts'; exact HN].
  destruct (Next_n_init _ _ _ _ _ HN) as (rs0 & x & ts0 & Heq & H0).
  apply app_inj_tail in Heq as [<- _].
  exists ts0. exact H0.
Qed.

(** ** Open *)

Section ConnectorFacts.
Context {W : Type} `{!BufferedBody W}.
Context {Client Credentials : Type}.
Variable SignParam : Client -> Credentials -> string -> string -> Values -> Values.
Variable PostForm : string -> Values -> Response W + error.

Lemma copy_params_spec (params pcopy : nat) (h : store) :
  params ≠ pcopy →
  copy_params params pcopy (<[pcopy := ∅]> h) = <[pcopy := h !!! params]> h.
Proof.
  intros Hne. unfold copy_params.
  assert (Hp : (<[pcopy := ∅]> h : store) !!! params = h !!! params).
  { apply lookup_total_insert_ne. congruence. }
  rewrite Hp.
  apply (map_fold_weak_ind
           (λ (r : store) (m : Values), r = <[pcopy := m]> h)).
  - reflexivity.
  - intros key values m r Hnone ->.
    rewrite lookup_total_insert_eq, insert_insert_eq. reflexivity.
Qed.

Lemma setup_request_body_spec (c : Client) (a : Credentials) (urlStr : string)
    (params : nat) (h : store) :
  is_Some (h !! params) →
  setup_request_body SignParam c a urlStr params h
  = (<[fresh (dom h) := SignParam c a "POST" urlStr (h !!! params)]> h,
     fresh (dom h))
  ∧ fresh (dom h) ≠ params.
Proof.
  intros Hp.
  assert (Hne : params ≠ fresh (dom h)).
  { intros Heq. apply elem_of_dom in Hp. rewrite Heq in Hp.
    exact (is_fresh (dom h) Hp). }
  split; [|congruence].
  unfold setup_request_body.
  rewrite (copy_params_spec _ _ _ Hne).
  rewrite lookup_total_insert_eq, insert_insert_eq. reflexivity.
Qed.

Lemma Open_store (c : Client) (a : Credentials) (urlStr : string)
    (params : nat) (h : store) :
  store_final (Open SignParam PostForm c a urlStr params h)
  = (setup_request_body SignParam c a urlStr params h).1
  ∧ posted (Open SignParam PostForm c a urlStr params h)
    = request_form SignParam c a urlStr params h.
Proof.
  unfold Open, request_form.
  destruct (setup_request_body SignParam c a urlStr params h) as [h' pcopy].
  simpl. destruct (PostForm urlStr (h' !!! pcopy)) as [resp|e].
  - case_bool_decide.
    + destruct (ReadAll (resp_Body resp)) as [[p e] w']. auto.
    + auto.
  - destruct (fatal e new_Stream) as [e' ts']. auto.
Qed.

(** C9. The map that the caller passed as [params] is the same after
    [Open] as before, whichever way [Open] returns, and so is every other
    map that existed before the call: the entries are copied to a new map,
    only that map is signed, and the signed copy is what is posted. *)
Theorem Open_leaves_params_unmodified (c : Client) (a : Credentials)
    (urlStr : string) (params : nat) (h : store) :
  is_Some (h !! params) →
  let r := Open SignParam PostForm c a urlStr params h in
  store_final r !! params = h !! params ∧
  (∀ m, m ∈ dom h → store_final r !! m = h !! m) ∧
  posted r = SignParam c a "POST" urlStr (h !!! params) ∧
  store_final r !! fresh (dom h) = Some (posted r).
Proof.
  intros Hp r. subst r.
  destruct (Open_store c a urlStr params h) as [Hs Hf].
  destruct (setup_request_body_spec c a urlStr params h Hp) as [Hset Hne].
  rewrite Hs, Hf. unfold request_form. rewrite Hset. simpl.
  assert (Hold : ∀ m, m ∈ dom h →
            (<[fresh (dom h) := SignParam c a "POST" urlStr (h !!! params)]> h : store)
              !! m = h !! m).
  { intros m Hm. apply lookup_insert_ne. intros Heq. subst m.
    exact (is_fresh (dom h) Hm). }
  split; [|split; [|split]].
  - apply Hold. apply elem_of_dom. exact Hp.
  - exact Hold.
  - apply lookup_total_insert_eq.
  - rewrite lookup_total_insert_eq. apply lookup_insert_eq.
Qed.

(** What [Open] returns, by the answer of the transport. *)
Lemma Open_status_200 (c : Client) (a : Credentials) (urlStr : string)
    (params : nat) (h : store) (resp : Response W) :
  PostForm urlStr (request_form SignParam c a urlStr params h) = inl resp →
  resp_StatusCode resp = 200 →
  ret_stream (Open SignParam PostForm c a urlStr params h)
  = Some (set_body (Some (resp_Body resp)) new_Stream)
  ∧ ret_err (Open SignParam PostForm c a urlStr params h) = None.
Proof.
  unfold Open, request_form.
  destruct (setup_request_body SignParam c a urlStr params h) as [h' pcopy].
  simpl. intros -> Hc. rewrite bool_decide_eq_false_2 by (intros Hn; apply Hn, Hc).
  auto.
Qed.

Lemma Open_status_not_200 (c : Client) (a : Credentials) (urlStr : string)
    (params : nat) (h : store) (resp : Response W) :
  PostForm urlStr (request_form SignParam c a urlStr params h) = inl resp →
  resp_StatusCode resp ≠ 200 →
  let r := Open SignParam PostForm c a urlStr params h in
  ret_stream r = None ∧
  ret_err r = Some (ErrHTTPStatus
                      (mkHTTPStatusError (resp_StatusCode resp)
                         (string_of_bytes (ReadAll (resp_Body resp)).1.1))) ∧
  body (ts_final r) = Some (ReadAll (resp_Body resp)).2 ∧
  err (ts_final r) = None ∧
  trace (ts_final r) = [EvReadAll].
Proof.
  unfold Open, request_form.
  destruct (setup_request_body SignParam c a urlStr params h) as [h' pcopy].
  simpl. intros -> Hc. rewrite bool_decide_eq_true_2 by exact Hc.
  destruct (ReadAll (resp_Body resp)) as [[p e] w']. simpl. auto.
Qed.

End ConnectorFacts.

(** C8. When the endpoint answers with a status other than 200 and a body
    that delivers the bytes [data], [Open] reads the body to its end, returns
    no [Stream], and returns an [HTTPStatusError] with that status code and
    with all of [data] as its message. *)
Theorem Open_reports_http_status {Client Credentials : Type}
    (SignParam : Client -> Credentials -> string -> string -> Values -> Values)
    (PostForm : string -> Values -> Response Wire.t + error)
    (c : Client) (a : Credentials) (urlStr : string) (params : nat) (h : store)
    (status : Z) (data : list byte) (f : error) (ce : option error) :
  PostForm urlStr (request_form SignParam c a urlStr params h)
  = inl (mkResponse status (Wire.mk data f ce)) →
  status ≠ 200 →
  let r := Open SignParam PostForm c a urlStr params h in
  ret_stream r = None ∧
  ret_err r = Some (ErrHTTPStatus (mkHTTPStatusError status (string_of_bytes data))) ∧
  body (ts_final r) = Some (Wire.mk [] f ce) ∧
  count_read (trace (ts_final r)) = 1%nat.
Proof.
  intros HP Hs r. subst r.
  destruct (Open_status_not_200 SignParam PostForm c a urlStr params h _ HP Hs)
    as (H1 & H2 & H3 & _ & H5).
  rewrite H1, H2, H3, H5. simpl. auto.
Qed.

(** ** The code at concrete inputs *)

(** C3. [Open] against an endpoint that answers 503 with the body
    "rate limited": the only call made on the body is [ReadAll]; it is not
    closed, and no [Stream] is returned through which it could be. *)
Theorem Open_non200_does_not_close_body :
  let r := Open example_SignParam (endpoint 503 (bytes "rate limited"))
                tt tt example_url 0%nat example_store in
  ret_stream r = None ∧
  ret_err r = Some (ErrHTTPStatus (mkHTTPStatusError 503 "rate limited")) ∧
  trace (ts_final r) = [EvReadAll] ∧
  count_close (trace (ts_final r)) = 0%nat.
Proof. vm_compute. auto. Qed.

(** Four bodies on which [Next] does not return the records as their bare
    content.  The record "hello": the slice returned ends with the
    delimiter.  A last record "world" with no delimiter after it: the call
    returns the end of the body and the record is lost.  A record "a" of one
    byte: it is skipped and the call returns the record after it.  A record
    of 8192 bytes, which with its delimiter does not fit the reader: the call
    fails with [ErrBufferFull], and so does the next one; neither that record
    nor the record "hello" after it is returned. *)
Lemma Next_does_not_return_bare_records :
  (∃ ts', Next 1 (Wire.stream (bytes "hello" ++ [CR]) EOF)
          = Done (bytes "hello" ++ [CR], None) ts'
          ∧ bytes "hello" ++ [CR] ≠ bytes "hello") ∧
  (∃ ts', Next_n 1 2 (Wire.stream (bytes "hello" ++ [CR] ++ bytes "world") EOF)
          = Done [(bytes "hello" ++ [CR], None); ([], Some EOF)] ts') ∧
  (∃ ts', Next_n 2 2 (Wire.stream (bytes "a" ++ [CR] ++ bytes "hello" ++ [CR]) EOF)
          = Done [(bytes "hello" ++ [CR], None); ([], Some EOF)] ts') ∧
  (∃ ts', Next_n 1 2 (Wire.stream (replicate (Z.to_nat 8192) "a"%byte ++ [CR]
                                   ++ bytes "hello" ++ [CR]) EOF)
          = Done [([], Some ErrBufferFull); ([], Some ErrBufferFull)] ts').
Proof.
  split; [|split; [|split]].
  - eexists. split; [vm_compute; reflexivity | discriminate].
  - eexists. vm_compute. reflexivity.
  - eexists. vm_compute. reflexivity.
  - eexists. vm_compute. reflexivity.
Qed.

(** The one point where the way the body reports its error shows: exactly a
    buffer's worth of bytes left, with no delimiter. *)
Example ReadSlice_at_the_buffer_boundary :
  (Wire.readSlice CR (Wire.Body (replicate (Z.to_nat 8192) "a"%byte) EOF None true)).1.2
  = Some EOF ∧
  (Wire.readSlice CR (Wire.Body (replicate (Z.to_nat 8192) "a"%byte) EOF None false)).1.2
  = Some ErrBufferFull.
Proof. split; vm_compute; reflexivity. Qed.

(** [Close] on the open stream that [Open] returned, then a [Next] whose
    read fails: the body has been closed twice. *)
Lemma Close_then_failed_read_closes_twice :
  ret_stream (Open example_SignParam (endpoint 200 []) tt tt example_url
                   0%nat example_store)
  = Some (Wire.stream [] EOF) ∧
  ∃ ts', calls brace_Unmarshal [OpClose; OpNext 1] (Wire.stream [] EOF)
         = Done [RetClose None; RetNext [] (Some EOF)] ts'
         ∧ err ts' = Some EOF
         ∧ trace ts' = [EvClose; EvReadSlice; EvClose]
         ∧ count_close (trace ts') = 2%nat.
Proof.
  split; [vm_compute; reflexivity|].
  eexists. split; [vm_compute; reflexivity|]. simpl. auto.
Qed.

(** The end-to-end run of the specification: two keepalives, a record,
    three keepalives, a record, and the end of the body. *)
Example two_records_then_EOF :
  ∃ ts', Next_n 4 3 (Wire.stream ([CR; CR] ++ json_text "hello" ++ [CR; CR; CR]
                                   ++ json_text "world" ++ [CR]) EOF)
         = Done [(json_text "hello" ++ [CR], None);
                 (json_text "world" ++ [CR], None);
                 ([], Some EOF)] ts'
         ∧ err ts' = Some EOF.
Proof. eexists. split; [vm_compute; reflexivity | reflexivity]. Qed.

(** A line that does not decode between two that do. *)
Example decode_ok_error_ok :
  ∃ ts', calls brace_Unmarshal
           [OpUnmarshalNext 1 []; OpUnmarshalNext 1 []; OpUnmarshalNext 1 []]
           (Wire.stream (json_id "1" ++ [CR] ++ bytes "not-json" ++ [CR]
                         ++ json_id "2" ++ [CR]) EOF)
         = Done [RetUnmarshalNext (json_id "1" ++ [CR]) None;
                 RetUnmarshalNext [] (Some (ErrExternal "invalid character"));
                 RetUnmarshalNext (json_id "2" ++ [CR]) None] ts'
         ∧ err ts' = None.
Proof. eexists. split; [vm_compute; reflexivity | reflexivity]. Qed.

Example HTTPStatusError_Error_503 :
  HTTPStatusError_Error (mkHTTPStatusError 503 "rate limited")
  = "twitterstream: status=503 rate limited"%string.
Proof. vm_compute. reflexivity. Qed.

(** ** Instances of the theorems *)

Lemma sticky_error_is_permanent_witness :
  err failed_stream = Some EOF ∧
  ((∀ e', (fatal e' failed_stream).1 = e' ∧ err (fatal e' failed_stream).2 = Some EOF) ∧
   (∀ fuel, Next fuel failed_stream = Done ([], Some EOF) failed_stream) ∧
   (∀ ops, calls brace_Unmarshal ops failed_stream
           = Done (failed_answer EOF <$> ops) failed_stream)).
Proof.
  split; [reflexivity|].
  exact (sticky_error_is_permanent brace_Unmarshal failed_stream EOF eq_refl).
Defined.

Lemma read_failure_is_terminal_witness :
  let w := Wire.mk [CR] EOF None in
  let w1 := Wire.mk [] EOF None in
  let ts := set_body (Some w) new_Stream in
  err ts = None ∧ body ts = Some w ∧
  skip_keepalives 1 w = Some w1 ∧
  ReadSlice CR w1 = ([], Some EOF, w1) ∧
  ∃ ts', Next 2 ts = Done ([], Some EOF) ts' ∧
         err ts' = Some EOF ∧
         count_close (trace ts') = 1%nat ∧
         (∀ ops, calls brace_Unmarshal ops ts'
                 = Done (failed_answer EOF <$> ops) ts').
Proof.
  intros w w1 ts.
  assert (Hs : skip_keepalives 1 w = Some w1) by reflexivity.
  assert (Hr : ReadSlice CR w1 = ([], Some EOF, w1)) by reflexivity.
  split; [reflexivity|]. split; [reflexivity|]. split; [exact Hs|].
  split; [exact Hr|].
  destruct (read_failure_is_terminal brace_Unmarshal 1 0 ts w w1 [] EOF w1
              eq_refl eq_refl Hs Hr)
    as (ts' & HN & He & _ & _ & _ & Hc & Hops & _).
  exists ts'. split; [exact HN|]. split; [exact He|]. split; [exact Hc | exact Hops].
Defined.

Lemma Close_spec_witness :
  (err failed_stream = Some EOF ∧ Close failed_stream = Done (Some EOF) failed_stream) ∧
  (err (Wire.stream [] EOF) = None ∧
   body (Wire.stream [] EOF) = Some (Wire.mk [] EOF None) ∧
   ∃ ts', Close (Wire.stream [] EOF) = Done None ts' ∧
          trace ts' = [EvClose] ∧ count_close (trace ts') = 1%nat).
Proof.
  split.
  - split; [reflexivity|].
    exact (proj1 (Close_spec failed_stream) EOF eq_refl).
  - split; [reflexivity|]. split; [reflexivity|].
    destruct (proj2 (Close_spec (Wire.stream [] EOF)) (Wire.mk [] EOF None)
                eq_refl eq_refl) as (ts' & H1 & H2 & H3 & _).
    exists ts'. split; [exact H1|]. split; [exact H2 | exact H3].
Defined.

Lemma keepalives_are_skipped_witness :
  let LF := "010"%byte in
  let w := Wire.mk ([CR; LF; CR; CR] ++ bytes "abc" ++ [CR]) EOF None in
  let w1 := Wire.mk ([LF; CR; CR] ++ bytes "abc" ++ [CR]) EOF None in
  let w3 := Wire.mk (bytes "abc" ++ [CR]) EOF None in
  let w4 := Wire.mk [] EOF None in
  let ts := set_body (Some w) new_Stream in
  (∃ r ts', Next 4 ts = Done r ts' ∧
            ((∃ p, r = (p, None) ∧ 2 < len p) ∨
             (∃ e, r = ([], Some e) ∧ err ts' = Some e))) ∧
  (err ts = None ∧ body ts = Some w ∧
   ReadSlice CR w = ([CR], None, w1) ∧ len [CR] <= 2 ∧
   Next 4 ts = Next 3 (log EvReadSlice (set_body (Some w1) ts))) ∧
  (skip_keepalives 3 w = Some w3 ∧
   ReadSlice CR w3 = (bytes "abc" ++ [CR], None, w4) ∧
   2 < len (bytes "abc" ++ [CR]) ∧
   ∃ ts', Next (3 + 1) ts = Done (bytes "abc" ++ [CR], None) ts' ∧
          count_read (trace ts') = (4 + count_read (trace ts))%nat).
Proof.
  intros LF w w1 w3 w4 ts.
  destruct (keepalives_are_skipped (W := Wire.t)) as (H1 & H2 & H3).
  assert (Hr : ReadSlice CR w = ([CR], None, w1)) by reflexivity.
  assert (Hl : len [CR] <= 2) by (vm_compute; discriminate).
  assert (Hs : skip_keepalives 3 w = Some w3) by reflexivity.
  assert (Hr3 : ReadSlice CR w3 = (bytes "abc" ++ [CR], None, w4)) by reflexivity.
  assert (Hl3 : 2 < len (bytes "abc" ++ [CR])) by reflexivity.
  split; [|split].
  - assert (HN : Next 4 ts
                 = Done (bytes "abc" ++ [CR], None)
                     (mkStream 0 0 (Some w4) None
                        [EvReadSlice; EvReadSlice; EvReadSlice; EvReadSlice]))
      by reflexivity.
    eexists _, _. split; [exact HN|]. exact (H1 4%nat ts _ _ HN).
  - split; [reflexivity|]. split; [reflexivity|]. split; [exact Hr|].
    split; [exact Hl|]. exact (H2 3%nat ts w [CR] w1 eq_refl eq_refl Hr Hl).
  - split; [exact Hs|]. split; [exact Hr3|]. split; [exact Hl3|].
    exact (H3 3%nat 0%nat ts w w3 _ None w4 eq_refl eq_refl Hs Hr3 (λ _, Hl3)).
Defined.

Lemma decode_error_is_recoverable_witness :
  let ts := Wire.stream (bytes "not-json" ++ [CR] ++ json_id "2" ++ [CR]) EOF in
  let ts1 := log EvReadSlice
               (set_body (Some (Wire.mk (json_id "2" ++ [CR]) EOF None)) ts) in
  let de := ErrExternal "invalid character" in
  (Next 1 ts = Done (bytes "not-json" ++ [CR], None) ts1 ∧
   brace_Unmarshal (bytes "not-json" ++ [CR]) [] = ([], Some de) ∧
   ∃ ts2, UnmarshalNext brace_Unmarshal 1 [] ts = Done ([], Some de) ts2 ∧
          err ts2 = None ∧
          count_close (trace ts2) = 0%nat ∧
          UnmarshalNext brace_Unmarshal 1 [] ts2
          = Done (json_id "2" ++ [CR], None)
              (log (EvUnmarshal (json_id "2" ++ [CR]))
                 (log EvReadSlice (set_body (Some (Wire.mk [] EOF None)) ts2)))) ∧
  (Next 1 (Wire.stream [] EOF) = Done ([], Some EOF) failed_stream ∧
   UnmarshalNext brace_Unmarshal 1 [] (Wire.stream [] EOF)
   = Done ([], Some EOF) failed_stream).
Proof.
  intros ts ts1 de.
  assert (HN : Next 1 ts = Done (bytes "not-json" ++ [CR], None) ts1) by reflexivity.
  assert (HU : brace_Unmarshal (bytes "not-json" ++ [CR]) [] = ([], Some de))
    by reflexivity.
  assert (HF : Next 1 (Wire.stream [] EOF) = Done ([], Some EOF) failed_stream)
    by reflexivity.
  split.
  - split; [exact HN|]. split; [exact HU|].
    destruct (proj1 (decode_error_is_recoverable brace_Unmarshal 1 [] ts ts1)
                _ _ _ HN HU) as (ts2 & H1 & H2 & _ & Hb & Ht & Hc & _).
    exists ts2. split; [exact H1|]. split; [exact H2|]. split; [exact Hc|].
    unfold UnmarshalNext in H1. rewrite HN, HU in H1. inversion H1. reflexivity.
  - split; [exact HF|].
    exact (proj2 (decode_error_is_recoverable brace_Unmarshal 1 []
                    (Wire.stream [] EOF) failed_stream) _ _ HF).
Defined.

Lemma Open_reports_http_status_witness :
  let r := Open example_SignParam (endpoint 503 (bytes "rate limited"))
                tt tt example_url 0%nat example_store in
  endpoint 503 (bytes "rate limited") example_url
    (request_form example_SignParam tt tt example_url 0%nat example_store)
  = inl (mkResponse 503 (Wire.mk (bytes "rate limited") EOF None)) ∧
  503 ≠ 200 ∧
  ret_stream r = None ∧
  ret_err r = Some (ErrHTTPStatus (mkHTTPStatusError 503 "rate limited")) ∧
  body (ts_final r) = Some (Wire.mk [] EOF None) ∧
  count_read (trace (ts_final r)) = 1%nat.
Proof.
  intros r.
  assert (Hne : 503 ≠ 200) by discriminate.
  split; [reflexivity|]. split; [exact Hne|].
  exact (Open_reports_http_status example_SignParam
           (endpoint 503 (bytes "rate limited")) tt tt example_url 0%nat
           example_store 503 (bytes "rate limited") EOF None eq_refl Hne).
Defined.

Lemma Open_leaves_params_unmodified_witness :
  let r := Open example_SignParam (endpoint 200 []) tt tt example_url
                0%nat example_store in
  is_Some (example_store !! 0%nat) ∧
  store_final r !! 0%nat = Some ({[ "track" := ["golang"] ]} : Values) ∧
  posted r = example_SignParam tt tt "POST" example_url (example_store !!! 0%nat).
Proof.
  intros r.
  assert (Hp : is_Some (example_store !! 0%nat)) by (eexists; reflexivity).
  split; [exact Hp|].
  destruct (Open_leaves_params_unmodified example_SignParam (endpoint 200 [])
              tt tt example_url 0%nat example_store Hp) as (H1 & _ & H3 & _).
  split; [exact H1 | exact H3].
Defined.

Lemma Next_returns_records_in_order_witness :
  let items := [Keepalive [CR]; Keepalive [CR]; Rec (json_text "hello");
                Keepalive [CR]; Keepalive ["010"%byte; CR]; Keepalive [CR];
                Rec (json_text "world")] in
  let ts := Wire.stream (wire_of items) EOF in
  Forall valid_item items ∧
  body ts = Some (Wire.mk (wire_of items) EOF None) ∧
  err ts = None ∧
  (length items < 8)%nat ∧
  (∃ ts', Next_n 8 2 ts
          = Done [(json_text "hello" ++ [CR], None);
                  (json_text "world" ++ [CR], None)] ts') ∧
  (∃ ts', Next_n 8 3 ts
          = Done [(json_text "hello" ++ [CR], None);
                  (json_text "world" ++ [CR], None);
                  ([], Some EOF)] ts').
Proof.
  intros items ts.
  assert (Hrec : ∀ r, bool_decide (CR ∉ r) = true → (2 <=? len r) = true →
                      (len r <? Wire.bufSize) = true → valid_record r).
  { intros r H1 H2 H3. split; [|split].
    - apply bool_decide_eq_true in H1. exact H1.
    - apply Z.leb_le. exact H2.
    - apply Z.ltb_lt. exact H3. }
  assert (Hv : Forall valid_item items).
  { repeat (apply Forall_cons_2; [|]); try apply Forall_nil; simpl;
      try reflexivity; try (apply Hrec; reflexivity).
    split; [discriminate | reflexivity]. }
  assert (Hf : (length items < 8)%nat) by (simpl; lia).
  split; [exact Hv|]. split; [reflexivity|]. split; [reflexivity|].
  split; [exact Hf|].
  exact (Next_returns_records_in_order items EOF 8%nat ts None Hv eq_refl eq_refl Hf).
Defined.

(** * Further properties of the code *)

(** ** What one read of a finite body returns *)

Section WireReads.

Lemma cut_Some (d : byte) (l line rest : list byte) :
  Wire.cut d l = Some (line, rest) →
  ∃ r, line = r ++ [d] ∧ (d ∉ r) ∧ l = line ++ rest.
Proof.
  revert line rest. induction l as [|b l IH]; intros line rest H; simpl in H.
  - discriminate.
  - case_bool_decide as Hb.
    + inversion H; subst. exists []. repeat split. apply not_elem_of_nil.
    + destruct (Wire.cut d l) as [[line' rest']|] eqn:Hc; [|discriminate].
      inversion H; subst.
      destruct (IH _ _ eq_refl) as (r & -> & Hr & ->).
      exists (b :: r). repeat split.
      apply not_elem_of_cons. split; [congruence | exact Hr].
Qed.

Lemma cut_None (d : byte) (l : list byte) :
  Wire.cut d l = None ↔ (d ∉ l).
Proof.
  induction l as [|b l IH]; simpl.
  - split; [intros _; apply not_elem_of_nil | reflexivity].
  - case_bool_decide as Hb.
    + subst b. split; [discriminate|]. intros Hn. exfalso. apply Hn. left.
    + destruct (Wire.cut d l) as [[line rest]|] eqn:Hc.
      * split; [discriminate|]. intros Hn.
        apply not_elem_of_cons in Hn as [_ Hn]. apply IH in Hn. discriminate.
      * split; [|reflexivity]. intros _.
        apply not_elem_of_cons. split; [congruence | apply IH; reflexivity].
Qed.

(** A read that succeeds returns one whole line, no longer than the
    buffer, and takes exactly that line off the front of the body. *)
Lemma readSlice_ok (w w' : Wire.t) (p : list byte) :
  Wire.readSlice CR w = (p, None, w') →
  (∃ r, p = r ++ [CR] ∧ CR ∉ r) ∧ len p <= Wire.bufSize ∧
  Wire.pending w = p ++ Wire.pending w' ∧
  Wire.fail w' = Wire.fail w ∧ Wire.close_err w' = Wire.close_err w.
Proof.
  unfold Wire.readSlice, Wire.buffer_full. intros H.
  destruct (Wire.cut CR (Wire.pending w)) as [[line rest]|] eqn:Hc.
  - destruct (len line <=? Wire.bufSize) eqn:Hl; [|discriminate].
    inversion H; subst. simpl.
    destruct (cut_Some _ _ _ _ Hc) as (r & Hline & Hr & Hw).
    split; [exists r; split; [exact Hline | exact Hr]|].
    split; [apply Z.leb_le; exact Hl|].
    split; [exact Hw|]. split; reflexivity.
  - unfold Wire.end_of_body in H.
    destruct (len (Wire.pending w) <? Wire.bufSize); [discriminate|].
    destruct ((len (Wire.pending w) =? Wire.bufSize) && Wire.error_with_data w);
      discriminate.
Qed.

(** A read that fails: the body has ended before a delimiter, or the
    buffer is full before one. *)
Lemma readSlice_fails (w w' : Wire.t) (p : list byte) (e : error) :
  Wire.readSlice CR w = (p, Some e, w') →
  (e = Wire.fail w ∧ (CR ∉ Wire.pending w)) ∨ e = ErrBufferFull.
Proof.
  unfold Wire.readSlice, Wire.buffer_full, Wire.end_of_body. intros H.
  destruct (Wire.cut CR (Wire.pending w)) as [[line rest]|] eqn:Hc.
  - destruct (len line <=? Wire.bufSize); [discriminate|].
    inversion H; subst. right. reflexivity.
  - apply cut_None in Hc.
    destruct (len (Wire.pending w) <? Wire.bufSize).
    + inversion H; subst. left. split; [reflexivity | exact Hc].
    + destruct ((len (Wire.pending w) =? Wire.bufSize) && Wire.error_with_data w);
        inversion H; subst; [left; split; [reflexivity | exact Hc] | right; reflexivity].
Qed.

Lemma readSlice_tail (w : Wire.t) :
  (CR ∉ Wire.pending w) → len (Wire.pending w) < Wire.bufSize →
  Wire.readSlice CR w
  = Wire.end_of_body w.
Proof.
  intros Hn Hl. unfold Wire.readSlice.
  apply cut_None in Hn. rewrite Hn.
  apply Z.ltb_lt in Hl. rewrite Hl. reflexivity.
Qed.

Lemma readSlice_too_long (w : Wire.t) :
  (CR ∉ take (Z.to_nat Wire.bufSize) (Wire.pending w)) →
  Wire.bufSize < len (Wire.pending w) →
  Wire.readSlice CR w = Wire.buffer_full w.
Proof.
  intros Hn Hl. unfold Wire.readSlice.
  destruct (Wire.cut CR (Wire.pending w)) as [[line rest]|] eqn:Hc.
  - destruct (len line <=? Wire.bufSize) eqn:Hle; [|reflexivity].
    exfalso. apply Hn.
    destruct (cut_Some _ _ _ _ Hc) as (r & Hline & Hr & Hw).
    apply Z.leb_le in Hle. rewrite Hw.
    rewrite take_app_ge by (unfold len, Wire.bufSize in *; lia).
    apply elem_of_app. left. rewrite Hline.
    apply elem_of_app. right. apply list_elem_of_singleton. reflexivity.
  - assert (H1 : (len (Wire.pending w) <? Wire.bufSize) = false)
      by (apply Z.ltb_ge; lia).
    assert (H2 : (len (Wire.pending w) =? Wire.bufSize) = false)
      by (apply Z.eqb_neq; lia).
    rewrite H1, H2. reflexivity.
Qed.


(** Every read that succeeds shortens the body. *)
Lemma readSlice_consumes (w w' : Wire.t) (p : list byte) :
  Wire.readSlice CR w = (p, None, w') →
  (length (Wire.pending w') < length (Wire.pending w))%nat.
Proof.
  intros H. destruct (readSlice_ok _ _ _ H) as ((r & -> & _) & _ & Hw & _).
  rewrite Hw, !length_app. simpl. lia.
Qed.

Lemma Next_loop_returns (fuel : nat) : ∀ (ts : Stream Wire.t) (w : Wire.t),
  body ts = Some w → (length (Wire.pending w) < fuel)%nat →
  ∃ r ts', Next_loop fuel ts = Done r ts'.
Proof.
  induction fuel as [|fuel IH]; intros ts w Hb Hf; [lia|].
  rewrite Next_loop_S, Hb. change (@ReadSlice Wire.t _) with Wire.readSlice.
  destruct (Wire.readSlice CR w) as [[p e] w'] eqn:Hr. cbv zeta.
  destruct e as [e|].
  - destruct (fatal e (log EvReadSlice (set_body (Some w') ts))) as [e' ts2]. eauto.
  - destruct (len p <=? 2); [|eauto].
    apply (IH (log EvReadSlice (set_body (Some w') ts)) w'); [reflexivity|].
    pose proof (readSlice_consumes _ _ _ Hr). lia.
Qed.

Lemma Next_loop_line (fuel : nat) : ∀ (ts ts' : Stream Wire.t) (w : Wire.t) p,
  body ts = Some w → Next_loop fuel ts = Done (p, None) ts' →
  ∃ r ks w',
    p = r ++ [CR] ∧ (CR ∉ r) ∧ 2 <= len r ∧ len p <= Wire.bufSize ∧
    body ts' = Some w' ∧ Wire.pending w = concat ks ++ p ++ Wire.pending w' ∧
    Forall (λ k, len k <= 2 ∧ ∃ r', k = r' ++ [CR] ∧ (CR ∉ r')) ks.
Proof.
  induction fuel as [|fuel IH]; intros ts ts' w p Hb H; [discriminate|].
  rewrite Next_loop_S, Hb in H. change (@ReadSlice Wire.t _) with Wire.readSlice in H.
  destruct (Wire.readSlice CR w) as [[q e] w1] eqn:Hr. cbv zeta in H.
  destruct e as [e|].
  - destruct (fatal e (log EvReadSlice (set_body (Some w1) ts))) as [e' ts2].
    discriminate.
  - destruct (readSlice_ok _ _ _ Hr) as ((r & Hq & Hnr) & Hlen & Hw & _).
    destruct (len q <=? 2) eqn:Hl.
    + destruct (IH (log EvReadSlice (set_body (Some w1) ts)) ts' w1 p eq_refl H)
        as (r' & ks & w' & Hp & Hr' & H2 & Hb' & Hbody & Hw1 & Hks).
      exists r', (q :: ks), w'. repeat split; auto.
      * rewrite Hw, Hw1. simpl. rewrite <- app_assoc. reflexivity.
      * apply Forall_cons_2; [|exact Hks].
        split; [apply Z.leb_le; exact Hl | exists r; auto].
    + inversion H; subst. exists r, [], w1. repeat split; auto.
      apply Z.leb_gt in Hl. rewrite len_app in Hl. unfold len in Hl at 2.
      simpl in Hl. lia.
Qed.

End WireReads.

(** ** Next on an arbitrary finite body *)

(** X1. [Next] returns on every finite body, whatever its bytes: more loop
    iterations than the body has bytes left are enough. *)
Theorem Next_returns_on_finite_body (fuel : nat) (ts : Stream Wire.t) (w : Wire.t) :
  body ts = Some w →
  (length (Wire.pending w) < fuel)%nat →
  ∃ r ts', Next fuel ts = Done r ts'.
Proof.
  intros Hb Hf. unfold Next. destruct (err ts) as [e|]; [eauto|].
  exact (Next_loop_returns fuel ts w Hb Hf).
Qed.

(** X2. A slice that [Next] returns is one whole line of the body: it ends
    with the delimiter and has no other delimiter in it, its payload has at
    least two bytes, and it fits the buffer.  The call takes off the front of
    the body the lines it skipped, each of at most two bytes, and then that
    line, and nothing else. *)
Theorem Next_returns_whole_lines (fuel : nat) (ts ts' : Stream Wire.t)
    (w : Wire.t) (p : list byte) :
  body ts = Some w →
  Next fuel ts = Done (p, None) ts' →
  ∃ r ks w',
    p = r ++ [CR] ∧ (CR ∉ r) ∧ 2 <= len r ∧ len p <= Wire.bufSize ∧
    body ts' = Some w' ∧ Wire.pending w = concat ks ++ p ++ Wire.pending w' ∧
    Forall (λ k, len k <= 2 ∧ ∃ r', k = r' ++ [CR] ∧ (CR ∉ r')) ks.
Proof.
  intros Hb H. unfold Next in H. destruct (err ts) as [e|]; [discriminate|].
  exact (Next_loop_line fuel ts ts' w p Hb H).
Qed.

(** ** Sequences of calls on any body *)

Section MoreStreamFacts.
Context {W : Type} `{!BufferedBody W}.
Context {Data : Type}.
Variable Unmarshal : list byte -> Data -> Data * option error.

(** A read that fails after [n] skipped slices. *)
Lemma Next_read_fails (n k : nat) (ts : Stream W) w w1 p (e : error) w2 :
  err ts = None → body ts = Some w →
  skip_keepalives n w = Some w1 →
  ReadSlice CR w1 = (p, Some e, w2) →
  ∃ ts', Next (n + S k) ts = Done ([], Some e) ts' ∧
         err ts' = Some e ∧
         body ts' = Some (body_Close w2).2 ∧
         count_close (trace ts') = S (count_close (trace ts)) ∧
         count_read (trace ts') = (S n + count_read (trace ts))%nat.
Proof.
  intros He Hb Hs Hr.
  destruct (skip_then_Next_loop n (S k) ts w w1 Hb Hs)
    as (ts1 & Heq & Hb1 & He1 & Hr1 & Hc1).
  rewrite He in He1.
  set (ts2 := log EvReadSlice (set_body (Some w2) ts1)).
  pose proof (fatal_returns e ts2) as Hret.
  pose proof (fatal_sets_err e ts2 He1) as Hse.
  pose proof (fatal_closes_body e ts2 w2 eq_refl) as [Ht Hbody].
  exists (fatal e ts2).2. split; [|split; [exact Hse | split; [exact Hbody|]]].
  - unfold Next. rewrite He, Heq, Next_loop_S, Hb1, Hr. cbv zeta. fold ts2.
    destruct (fatal e ts2) as [e'' ts3]. simpl in Hret. subst e''. reflexivity.
  - rewrite Ht. simpl. rewrite Hc1, Hr1. auto.
Qed.

(** What one call does to the sticky error and to the number of closes. *)
Lemma call_step (op : Op) (ts ts' : Stream W) (r : Ret) :
  err ts = None → call Unmarshal op ts = Done r ts' →
  (err ts' = None ∧ (count_close (trace ts) <= count_close (trace ts'))%nat ∧
   (∀ p e, r ≠ RetNext p (Some e)))
  ∨ (∃ e, err ts' = Some e ∧
          (count_close (trace ts) < count_close (trace ts'))%nat ∧
          (r = RetNext [] (Some e) ∨ ∃ d, r = RetUnmarshalNext d (Some e))).
Proof.
  intros He H. destruct op as [fuel|fuel d| |]; simpl in H.
  - destruct (Next fuel ts) as [[p e] ts1| |] eqn:HN; try discriminate.
    inversion H; subst. apply Next_ends_open in HN; [|exact He].
    inversion HN as [? ? Hl He' Hc Hb|e0 ? t He' Ht Hc]; subst.
    + left. split; [exact He'|]. split; [lia|]. intros q e Hq. discriminate.
    + right. exists e0. split; [exact He'|]. split; [lia|]. left. reflexivity.
  - unfold UnmarshalNext in H.
    destruct (Next fuel ts) as [[p e] ts1| |] eqn:HN; try discriminate.
    apply Next_ends_open in HN; [|exact He].
    inversion HN as [? ? Hl He' Hc Hb|e0 ? t He' Ht Hc]; subst.
    + destruct (Unmarshal p d) as [d' de]. inversion H; subst.
      left. split; [exact He'|]. split; [simpl; lia|]. intros q e Hq. discriminate.
    + inversion H; subst. right. exists e0. split; [exact He'|].
      split; [lia|]. right. exists d. reflexivity.
  - inversion H; subst. left. split; [exact He|]. split; [lia|].
    intros q e Hq. discriminate.
  - unfold Close in H. rewrite He in H.
    destruct (body ts) as [w|]; [|discriminate].
    destruct (body_Close w) as [ce w']. inversion H; subst.
    left. split; [exact He|]. split; [simpl; lia|]. intros q e Hq. discriminate.
Qed.

(** X3. A stream that has failed has had its body closed, and its sticky
    error is one that a call of [Next] or [UnmarshalNext] returned: from an
    open stream, after any sequence of calls, a non-nil [Err] means that the
    body was closed during the sequence and that the same error was the
    answer of one of the calls. *)
Theorem failed_stream_was_closed (ops : list Op) : ∀ (ts ts' : Stream W) rs (e : error),
  err ts = None →
  calls Unmarshal ops ts = Done rs ts' →
  Err ts' = Some e →
  (count_close (trace ts) < count_close (trace ts'))%nat ∧
  (RetNext [] (Some e) ∈ rs ∨ ∃ d, RetUnmarshalNext d (Some e) ∈ rs).
Proof.
  induction ops as [|op ops IH]; intros ts ts' rs e He H Hf; simpl in H.
  - inversion H; subst. unfold Err in Hf. congruence.
  - destruct (call Unmarshal op ts) as [r ts1| |] eqn:Hc; try discriminate.
    destruct (calls Unmarshal ops ts1) as [rs1 ts2| |] eqn:Hcs; try discriminate.
    inversion H; subst.
    destruct (call_step _ _ _ _ He Hc) as [(He1 & Hle & _) | (e1 & He1 & Hlt & Hr)].
    + destruct (IH _ _ _ _ He1 Hcs Hf) as [Hlt Hin].
      split; [lia|]. destruct Hin as [Hin | [d Hin]]; [left | right; exists d];
        apply elem_of_cons; right; exact Hin.
    + rewrite (calls_failed Unmarshal _ _ _ He1) in Hcs. inversion Hcs; subst.
      unfold Err in Hf. rewrite He1 in Hf. inversion Hf; subst.
      split; [exact Hlt|].
      destruct Hr as [-> | [d ->]]; [left | right; exists d]; apply elem_of_cons; left;
        reflexivity.
Qed.

(** X4. Over any sequence of calls on a stream that starts open, every error
    that [Next] returns is the same error, it comes with a nil slice, and
    [Err] reports it at the end. *)
Theorem Next_errors_are_the_sticky_error (ops : list Op) :
  ∀ (ts ts' : Stream W) rs p (e : error),
  err ts = None →
  calls Unmarshal ops ts = Done rs ts' →
  RetNext p (Some e) ∈ rs →
  p = [] ∧ Err ts' = Some e.
Proof.
  induction ops as [|op ops IH]; intros ts ts' rs p e He H Hin; simpl in H.
  - inversion H; subst. apply elem_of_nil in Hin. contradiction.
  - destruct (call Unmarshal op ts) as [r ts1| |] eqn:Hc; try discriminate.
    destruct (calls Unmarshal ops ts1) as [rs1 ts2| |] eqn:Hcs; try discriminate.
    inversion H; subst.
    destruct (call_step _ _ _ _ He Hc) as [(He1 & _ & Hn) | (e1 & He1 & _ & Hr)].
    + apply elem_of_cons in Hin as [Hin | Hin].
      * exfalso. exact (Hn p e (eq_sym Hin)).
      * exact (IH _ _ _ _ _ He1 Hcs Hin).
    + rewrite (calls_failed Unmarshal _ _ _ He1) in Hcs. inversion Hcs; subst.
      unfold Err. rewrite He1.
      apply elem_of_cons in Hin as [Hin | Hin].
      * destruct Hr as [-> | [d ->]]; [|discriminate]. inversion Hin; subst. auto.
      * apply list_elem_of_fmap in Hin as (op' & Heq & _).
        destruct op'; simpl in Heq; try discriminate. inversion Heq; subst. auto.
Qed.

(** A call of [Next] on an open stream makes at least one read. *)
Lemma Next_loop_reads (fuel : nat) : ∀ (ts ts' : Stream W) r,
  Next_loop fuel ts = Done r ts' →
  (count_read (trace ts) < count_read (trace ts'))%nat.
Proof.
  induction fuel as [|fuel IH]; intros ts ts' r H; [discriminate|].
  rewrite Next_loop_S in H. destruct (body ts) as [w|]; [|discriminate].
  destruct (ReadSlice CR w) as [[p e] w']. cbv zeta in H.
  set (ts1 := log EvReadSlice (set_body (Some w') ts)) in *.
  assert (H1 : count_read (trace ts1) = S (count_read (trace ts))) by reflexivity.
  destruct e as [e|].
  - pose proof (fatal_closes_body e ts1 w' eq_refl) as [Ht _].
    destruct (fatal e ts1) as [e' ts2]. simpl in Ht. inversion H; subst.
    rewrite Ht. simpl. lia.
  - destruct (len p <=? 2).
    + apply IH in H. lia.
    + inversion H; subst. lia.
Qed.

(** X5. [Close] does not mark the stream: on an open stream [n] calls of
    [Close] make [n] calls of the body's [Close], read nothing, and leave
    [Err] nil; a call of [Next] after them still reads from the body. *)
Theorem Close_is_repeated (n : nat) : ∀ (ts : Stream W),
  err ts = None →
  is_Some (body ts) →
  ∃ rs ts', calls Unmarshal (replicate n OpClose) ts = Done rs ts' ∧
            length rs = n ∧
            Err ts' = None ∧ is_Some (body ts') ∧
            count_close (trace ts') = (n + count_close (trace ts))%nat ∧
            count_read (trace ts') = count_read (trace ts) ∧
            (∀ fuel r ts'', Next fuel ts' = Done r ts'' →
                (count_read (trace ts') < count_read (trace ts''))%nat).
Proof.
  induction n as [|n IH]; intros ts He [w Hb]; simpl.
  - exists [], ts. repeat split; eauto.
    intros fuel r ts'' H. unfold Next in H. rewrite He in H.
    exact (Next_loop_reads _ _ _ _ H).
  - unfold Close. rewrite He, Hb. destruct (body_Close w) as [ce w'].
    destruct (IH (log EvClose (set_body (Some w') ts)) He ltac:(simpl; eauto))
      as (rs & ts' & Hc & Hl & He' & Hb' & Hcc & Hcr & Hnext).
    rewrite Hc. eexists _, ts'. split; [reflexivity|].
    repeat split; auto; simpl in *; [lia | rewrite Hcc; lia].
Qed.

(** X6. A call of [Next] that returns a slice leaves the stream open: no
    sticky error is set, the body is still there and has not been closed by
    the call, and at least one read was made. *)
Theorem Next_success_keeps_stream_open (fuel : nat) (ts ts' : Stream W) (p : list byte) :
  Next fuel ts = Done (p, None) ts' →
  Err ts = None ∧ Err ts' = None ∧ is_Some (body ts') ∧
  count_close (trace ts') = count_close (trace ts) ∧
  (count_read (trace ts) < count_read (trace ts'))%nat.
Proof.
  intros H. unfold Err. destruct (err ts) as [e|] eqn:He.
  - rewrite (Next_failed _ _ _ He) in H. discriminate.
  - pose proof (Next_ends_open _ _ _ _ He H) as Hends.
    inversion Hends as [? ? Hl He' Hc Hb|]; subst.
    repeat split; auto.
    unfold Next in H. rewrite He in H. exact (Next_loop_reads _ _ _ _ H).
Qed.

(** Calls of [UnmarshalNext] walk the stream as calls of [Next] do. *)
Lemma calls_UnmarshalNext_lines (fuel : nat) (ps : list (list byte)) :
  ∀ (ds : list Data) (ts ts2 ts' : Stream W),
  same_state ts ts2 →
  Next_n fuel (length ps) ts = Done ((λ p, (p, None)) <$> ps) ts' →
  length ds = length ps →
  ∃ ts2', calls Unmarshal (OpUnmarshalNext fuel <$> ds) ts2
          = Done (zip_with (decode_ret Unmarshal) ps ds) ts2'
          ∧ same_state ts' ts2'.
Proof.
  induction ps as [|p ps IH]; intros ds ts ts2 ts' Hs H Hl.
  - destruct ds; [|discriminate]. simpl in *. inversion H; subst. eauto.
  - destruct ds as [|d ds]; [discriminate|]. simpl in Hl.
    change (length (p :: ps)) with (S (length ps)) in H. rewrite Next_n_S in H.
    pose proof (Next_same fuel ts ts2 Hs) as Hsame.
    destruct (Next fuel ts) as [r ts1| |] eqn:HN; try discriminate.
    destruct (Next_n fuel (length ps) ts1) as [rs1 ts3| |] eqn:Hn; try discriminate.
    inversion H; subst.
    destruct (Next fuel ts2) as [r2 ts21| |] eqn:HN2; simpl in Hsame;
      try contradiction.
    destruct Hsame as [<- Hs1].
    assert (Hs1' : same_state ts1 (log (EvUnmarshal p) ts21)).
    { destruct Hs1 as [Hb1 He1]. split; simpl; auto. }
    destruct (IH ds ts1 (log (EvUnmarshal p) ts21) ts' Hs1' Hn ltac:(lia))
      as (ts2' & Hc & Hs').
    exists ts2'. split; [|exact Hs'].
    cbn [fmap list_fmap calls call zip_with].
    unfold UnmarshalNext. rewrite HN2. unfold decode_ret.
    destruct (Unmarshal p d) as [d' de].
    change (list_fmap _ _ (OpUnmarshalNext fuel) ds) with (OpUnmarshalNext fuel <$> ds).
    rewrite Hc. reflexivity.
Qed.

(** The consumer of the package comment on a stream that gives the lines
    [ps] and then fails with [e]. *)
Lemma consume_lines (fuel : nat) (zero : Data) (ps : list (list byte)) :
  ∀ (k : nat) (acc : list Data) (ts ts2 ts' : Stream W) (e : error),
  same_state ts ts2 → err ts = None →
  Next_n fuel (S (length ps)) ts
  = Done (((λ p, (p, None)) <$> ps) ++ [([], Some e)]) ts' →
  ∃ ts2', consume Unmarshal (S (S (length ps)) + k) fuel zero acc ts2
          = Done (acc ++ omap (decode_ok Unmarshal zero) ps, Some e) ts2'
          ∧ err ts2' = Some e
          ∧ count_close (trace ts2') = S (count_close (trace ts2)).
Proof.
  induction ps as [|p ps IH]; intros k acc ts ts2 ts' e Hs He H.
  - simpl in H. pose proof (Next_same fuel ts ts2 Hs) as Hsame.
    destruct (Next fuel ts) as [r ts1| |] eqn:HN; try discriminate.
    inversion H; subst.
    destruct (Next fuel ts2) as [r2 ts21| |] eqn:HN2; simpl in Hsame;
      try contradiction.
    destruct Hsame as [<- Hs1].
    assert (He2 : err ts2 = None) by (destruct Hs as [_ <-]; exact He).
    pose proof (Next_ends_open _ _ _ _ He2 HN2) as Hends.
    inversion Hends as [|e0 ? t He' Ht Hc]; subst.
    exists ts21. split; [|split; [exact He' | exact Hc]].
    change (S (S (length (@nil (list byte)))) + k)%nat with (S (S k)).
    cbn [consume]. unfold Err at 1. rewrite He2.
    unfold UnmarshalNext. rewrite HN2.
    cbn [consume]. unfold Err, Close. rewrite He'.
    simpl. rewrite app_nil_r. reflexivity.
  - change (length (p :: ps)) with (S (length ps)) in *.
    rewrite Next_n_S in H.
    pose proof (Next_same fuel ts ts2 Hs) as Hsame.
    destruct (Next fuel ts) as [r ts1| |] eqn:HN; try discriminate.
    destruct (Next_n fuel (S (length ps)) ts1) as [rs1 ts3| |] eqn:Hn;
      try discriminate.
    inversion H; subst.
    destruct (Next fuel ts2) as [r2 ts21| |] eqn:HN2; simpl in Hsame;
      try contradiction.
    destruct Hsame as [<- Hs1].
    assert (He2 : err ts2 = None) by (destruct Hs as [_ <-]; exact He).
    pose proof (Next_ends_open _ _ _ _ He HN) as Hends1.
    pose proof (Next_ends_open _ _ _ _ He2 HN2) as Hends2.
    inversion Hends1 as [? ? _ He1 _ _|]; subst.
    inversion Hends2 as [? ? _ He21 Hc21 _|]; subst.
    assert (Hs1' : same_state ts1 (log (EvUnmarshal p) ts21)).
    { destruct Hs1 as [Hb1 He1']. split; simpl; auto. }
    change (S (S (S (length ps))) + k)%nat with (S (S (S (length ps)) + k)).
    cbn [consume]. unfold Err at 1. rewrite He2.
    unfold UnmarshalNext. rewrite HN2. unfold decode_ok at 1.
    cbn [omap list_omap].
    destruct (Unmarshal p zero) as [t [de|]].
    + destruct (IH k acc ts1 (log (EvUnmarshal p) ts21) ts' e Hs1' He1 Hn)
        as (ts2' & Hc & He' & Hcc).
      exists ts2'. split; [exact Hc|]. split; [exact He'|].
      rewrite Hcc. simpl. rewrite Hc21. reflexivity.
    + destruct (IH k (acc ++ [t]) ts1 (log (EvUnmarshal p) ts21) ts' e Hs1' He1 Hn)
        as (ts2' & Hc & He' & Hcc).
      exists ts2'. split; [|split; [exact He'|]].
      * rewrite Hc, <- app_assoc. reflexivity.
      * rewrite Hcc. simpl. rewrite Hc21. reflexivity.
Qed.

End MoreStreamFacts.

(** ** A record of one byte *)

(** C10. A record whose payload is the single byte [b] is two bytes long
    with its delimiter, and [Next] drops it like a keepalive: the call reads
    it, reads on, and returns what a call on the bytes after it returns, so
    at least two reads are made and the answer is never the record.  When the
    bytes after it start with a valid record, that record is what the call
    returns, after exactly two reads, and the body is left after that
    record.  No call of [Next] on the stream returns the one-byte record. *)
Theorem one_byte_record_is_dropped (b : byte) (rest : list byte) (f : error)
    (ce : option error) (fuel : nat) (ts : Stream Wire.t) :
  b ≠ CR →
  err ts = None →
  body ts = Some (Wire.mk (b :: CR :: rest) f ce) →
  (length rest < fuel)%nat →
  (∃ r ts', Next (S fuel) ts = Done r ts' ∧
            Next fuel (log EvReadSlice (set_body (Some (Wire.mk rest f ce)) ts))
            = Done r ts' ∧
            r.1 ≠ [b; CR] ∧
            (2 + count_read (trace ts) <= count_read (trace ts'))%nat) ∧
  (∀ r0 rest', valid_record r0 → rest = r0 ++ CR :: rest' →
     ∃ ts', Next (S fuel) ts = Done (r0 ++ [CR], None) ts' ∧
            body ts' = Some (Wire.mk rest' f ce) ∧
            count_read (trace ts') = (2 + count_read (trace ts))%nat) ∧
  (∀ fuel' r ts', Next fuel' ts = Done r ts' → r.1 ≠ [b; CR]).
Proof.
  intros Hb He Hbody Hf.
  set (ts1 := log EvReadSlice (set_body (Some (Wire.mk rest f ce)) ts)).
  assert (Hnever : ∀ fuel' r ts', Next fuel' ts = Done r ts' → r.1 ≠ [b; CR]).
  { intros fuel' r ts' H Heq.
    destruct (Next_never_short _ _ _ _ H) as [Hnil | Hlong].
    - rewrite Heq in Hnil. discriminate.
    - rewrite Heq in Hlong. unfold len in Hlong. simpl in Hlong. lia. }
  assert (Hskip : Next (S fuel) ts = Next fuel ts1).
  { destruct (readSlice_keepalive f ce [b; CR] rest) as [Hr Hl];
      [split; [exact Hb | reflexivity]|].
    exact (Next_skips_short fuel ts _ _ _ He Hbody Hr Hl). }
  assert (He1 : err ts1 = None) by exact He.
  split; [|split; [|exact Hnever]].
  - destruct (Next_loop_returns fuel ts1 (Wire.mk rest f ce) eq_refl Hf)
      as (r & ts' & HN).
    assert (HN1 : Next fuel ts1 = Done r ts')
      by (unfold Next; rewrite He1; exact HN).
    exists r, ts'. rewrite Hskip. split; [exact HN1|]. split; [exact HN1|].
    split.
    + apply (Hnever (S fuel) r ts'). rewrite Hskip. exact HN1.
    + pose proof (Next_loop_reads _ _ _ _ HN) as Hreads.
      change (count_read (trace ts1)) with (S (count_read (trace ts))) in Hreads.
      lia.
  - intros r0 rest' Hv Hrest.
    destruct fuel as [|k]; [lia|].
    assert (Hr : ReadSlice CR (Wire.mk rest f ce) = (r0 ++ [CR], None, Wire.mk rest' f ce)).
    { rewrite Hrest. apply readSlice_record. exact Hv. }
    assert (Hl : 2 < len (r0 ++ [CR])) by (apply Z.leb_gt, len_record; exact Hv).
    pose proof (Next_returns_long k ts1 _ _ _ He1 eq_refl Hr Hl) as HN.
    eexists. rewrite Hskip. split; [exact HN|]. split; reflexivity.
Qed.

Lemma one_byte_record_is_dropped_witness :
  let ts := Wire.stream (bytes "a" ++ [CR] ++ bytes "hello" ++ [CR]) EOF in
  let ts' := mkStream 0 0 (Some (Wire.mk [] EOF None)) None
               [EvReadSlice; EvReadSlice] in
  "a"%byte ≠ CR ∧ err ts = None ∧
  body ts = Some (Wire.mk ("a"%byte :: CR :: bytes "hello" ++ [CR]) EOF None) ∧
  (length (bytes "hello" ++ [CR]) < 7)%nat ∧
  valid_record (bytes "hello") ∧
  Next 8 ts = Done (bytes "hello" ++ [CR], None) ts' ∧
  (∃ ts'', Next 8 ts = Done (bytes "hello" ++ [CR], None) ts'' ∧
           body ts'' = Some (Wire.mk [] EOF None) ∧
           count_read (trace ts'') = 2%nat) ∧
  (∀ fuel' r ts'', Next fuel' ts = Done r ts'' → r.1 ≠ ["a"%byte; CR]).
Proof.
  intros ts ts'.
  assert (Hb : "a"%byte ≠ CR) by discriminate.
  assert (Hf : (length (bytes "hello" ++ [CR]) < 7)%nat) by (simpl; lia).
  assert (Hv : valid_record (bytes "hello")).
  { split; [apply (bool_decide_unpack _); vm_compute; exact I|].
    split; [apply Z.leb_le | apply Z.ltb_lt]; reflexivity. }
  split; [exact Hb|]. split; [reflexivity|]. split; [reflexivity|].
  split; [exact Hf|]. split; [exact Hv|]. split; [reflexivity|].
  destruct (one_byte_record_is_dropped "a"%byte (bytes "hello" ++ [CR]) EOF None
              7%nat ts Hb eq_refl eq_refl Hf) as (_ & H2 & H3).
  split; [|exact H3].
  exact (H2 (bytes "hello") [] Hv eq_refl).
Defined.

(** ** Lines that cannot be returned *)

(** X7. A line that does not fit the reader ends the stream: when, after
    [n] skipped slices, the next 8192 bytes of the body hold no delimiter and
    at least one more byte follows them, [Next] fails with [ErrBufferFull],
    which becomes the sticky error, and the body is closed. *)
Theorem oversized_line_is_fatal (n k : nat) (ts : Stream Wire.t) (w w1 : Wire.t) :
  err ts = None →
  body ts = Some w →
  skip_keepalives n w = Some w1 →
  (CR ∉ take (Z.to_nat Wire.bufSize) (Wire.pending w1)) →
  Wire.bufSize < len (Wire.pending w1) →
  ∃ ts', Next (n + S k) ts = Done ([], Some ErrBufferFull) ts' ∧
         Err ts' = Some ErrBufferFull ∧
         count_close (trace ts') = S (count_close (trace ts)).
Proof.
  intros He Hb Hs Hn Hl.
  pose proof (readSlice_too_long w1 Hn Hl) as Hr. unfold Wire.buffer_full in Hr.
  destruct (Next_read_fails n k ts w w1 _ _ _ He Hb Hs Hr)
    as (ts' & HN & He' & _ & Hc & _).
  exists ts'. auto.
Qed.

(** X8. Bytes after the last delimiter are never returned: when, after [n]
    skipped slices, what is left of the body has no delimiter and ends
    before the buffer is full, [Next] returns a nil slice with the error that
    ends the body; that error is sticky and nothing is left to read. *)
Theorem unterminated_tail_is_dropped (n k : nat) (ts : Stream Wire.t) (w w1 : Wire.t) :
  err ts = None →
  body ts = Some w →
  skip_keepalives n w = Some w1 →
  (CR ∉ Wire.pending w1) →
  len (Wire.pending w1) < Wire.bufSize →
  ∃ ts', Next (n + S k) ts = Done ([], Some (Wire.fail w1)) ts' ∧
         Err ts' = Some (Wire.fail w1) ∧
         body ts' = Some (Wire.Body [] (Wire.fail w1) (Wire.close_err w1)
                                    (Wire.error_with_data w1)) ∧
         (∀ fuel, Next fuel ts' = Done ([], Some (Wire.fail w1)) ts').
Proof.
  intros He Hb Hs Hn Hl.
  pose proof (readSlice_tail w1 Hn Hl) as Hr. unfold Wire.end_of_body in Hr.
  destruct (Next_read_fails n k ts w w1 _ _ _ He Hb Hs Hr)
    as (ts' & HN & He' & Hb' & _).
  exists ts'. split; [exact HN|]. split; [exact He'|]. split; [exact Hb'|].
  intros fuel. apply Next_failed. exact He'.
Qed.

(** ** Decoding a body of records *)

Section WireDecode.
Context {Data : Type}.
Variable Unmarshal : list byte -> Data -> Data * option error.

Lemma with_delimiter_lines (rs : list (list byte)) :
  with_delimiter <$> rs = (λ p, (p, None)) <$> ((λ r, r ++ [CR]) <$> rs).
Proof. rewrite <- list_fmap_compose. reflexivity. Qed.

(** X9. On a body of valid records and keepalive markers, successive calls
    of [UnmarshalNext] decode the records in order, call [i] being given
    record [i] with its delimiter and target [i], whether or not earlier
    decodes failed; the stream is still open afterwards. *)
Theorem UnmarshalNext_decodes_records_in_order (items : list Item) (f : error)
    (ce : option error) (fuel : nat) (ds : list Data) (ts : Stream Wire.t) :
  Forall valid_item items →
  body ts = Some (Wire.mk (wire_of items) f ce) →
  err ts = None →
  (length items < fuel)%nat →
  length ds = length (records items) →
  ∃ ts', calls Unmarshal (OpUnmarshalNext fuel <$> ds) ts
         = Done (zip_with (λ r d, decode_ret Unmarshal (r ++ [CR]) d)
                          (records items) ds) ts'
         ∧ Err ts' = None.
Proof.
  intros Hv Hb He Hf Hl.
  destruct (Next_n_items f ce items fuel ts Hv Hb He Hf) as (ts1 & HN & _).
  destruct (Next_n_init _ _ _ _ _ HN) as (rs0 & x & ts0 & Heq & H0).
  apply app_inj_tail in Heq as [<- _].
  rewrite with_delimiter_lines in H0.
  assert (Hlen : length ((λ r, r ++ [CR]) <$> records items) = length (records items))
    by apply length_fmap.
  rewrite <- Hlen in H0, Hl.
  destruct (calls_UnmarshalNext_lines Unmarshal fuel _ ds ts ts ts0
              (conj eq_refl eq_refl) H0 Hl) as (ts' & Hc & Hs).
  exists ts'. split.
  - rewrite Hc. f_equal. rewrite zip_with_fmap_l. reflexivity.
  - unfold Err. destruct Hs as [_ <-].
    clear -H0 He. revert ts ts0 H0 He.
    induction ((λ r, r ++ [CR]) <$> records items) as [|p ps IH];
      intros ts ts0 H0 He; simpl in H0.
    + inversion H0; subst. exact He.
    + destruct (Next fuel ts) as [r ts1| |] eqn:HN; try discriminate.
      destruct (Next_n fuel (length ps) ts1) as [rs1 ts3| |] eqn:Hn; try discriminate.
      inversion H0; subst.
      pose proof (Next_ends_open _ _ _ _ He HN) as Hends.
      inversion Hends; subst. eapply IH; eauto.
Qed.

(** X10. The consumer of the package comment, on a body of valid records
    and keepalive markers that ends with the error [f]: it hands to [process]
    the records that decode, in order, the loop ends with [f] as sticky
    error, the final [Close] returns [f], and the body has been closed
    exactly once more than before. *)
Theorem documented_loop_closes_once (items : list Item) (f : error)
    (ce : option error) (fuel k : nat) (zero : Data) (ts : Stream Wire.t) :
  Forall valid_item items →
  body ts = Some (Wire.mk (wire_of items) f ce) →
  err ts = None →
  (length items < fuel)%nat →
  ∃ ts', consume Unmarshal (S (S (length (records items))) + k) fuel zero [] ts
         = Done (omap (λ r, decode_ok Unmarshal zero (r ++ [CR])) (records items),
                 Some f) ts'
         ∧ Err ts' = Some f
         ∧ count_close (trace ts') = S (count_close (trace ts)).
Proof.
  intros Hv Hb He Hf.
  destruct (Next_n_items f ce items fuel ts Hv Hb He Hf) as (ts1 & HN & _).
  rewrite with_delimiter_lines in HN.
  assert (Hlen : length ((λ r, r ++ [CR]) <$> records items) = length (records items))
    by apply length_fmap.
  rewrite <- Hlen in HN.
  destruct (consume_lines Unmarshal fuel zero _ k [] ts ts ts1 f
              (conj eq_refl eq_refl) He HN) as (ts' & Hc & He' & Hcc).
  rewrite Hlen in Hc.
  exists ts'. split; [|split; [exact He' | exact Hcc]].
  rewrite Hc. simpl. f_equal. f_equal.
  clear. induction (records items) as [|r rs IH]; [reflexivity|].
  cbn [fmap list_fmap omap list_omap]. rewrite IH. reflexivity.
Qed.

End WireDecode.

(** ** What Open returns *)

Section MoreConnectorFacts.
Context {W : Type} `{!BufferedBody W}.
Context {Client Credentials : Type}.
Variable SignParam : Client -> Credentials -> string -> string -> Values -> Values.
Variable PostForm : string -> Values -> Response W + error.

(** X11. [Open] returns a stream or an error, never both and never neither.
    A stream that it returns is open, holds the response body, and nothing
    has been read from that body or done to it yet. *)
Theorem Open_returns_stream_or_error (c : Client) (a : Credentials)
    (urlStr : string) (params : nat) (h : store) :
  let r := Open SignParam PostForm c a urlStr params h in
  (ret_stream r = None ∧ is_Some (ret_err r)) ∨
  (ret_err r = None ∧
   ∃ ts, ret_stream r = Some ts ∧ Err ts = None ∧ is_Some (body ts) ∧ trace ts = []).
Proof.
  unfold Open.
  destruct (setup_request_body SignParam c a urlStr params h) as [h' pcopy].
  destruct (PostForm urlStr (h' !!! pcopy)) as [resp|e].
  - case_bool_decide.
    + destruct (ReadAll (resp_Body resp)) as [[p e] w']. simpl. left. eauto.
    + simpl. right. split; [reflexivity|]. eexists. split; [reflexivity|].
      simpl. unfold Err. simpl. eauto.
  - pose proof (fatal_returns e (new_Stream (W := W))) as Hret.
    destruct (fatal e new_Stream) as [e' ts']. simpl. left. eauto.
Qed.

(** X12. When the transport fails, [Open] returns the transport's error as it
    is and no stream; [fatal] finds no body, so no call is made on any body,
    and the error is latched in the stream that is dropped. *)
Theorem Open_transport_failure (c : Client) (a : Credentials)
    (urlStr : string) (params : nat) (h : store) (e : error) :
  PostForm urlStr (request_form SignParam c a urlStr params h) = inr e →
  let r := Open SignParam PostForm c a urlStr params h in
  ret_stream r = None ∧ ret_err r = Some e ∧
  body (ts_final r) = None ∧ trace (ts_final r) = [] ∧
  Err (ts_final r) = Some e.
Proof.
  unfold Open, request_form.
  destruct (setup_request_body SignParam c a urlStr params h) as [h' pcopy].
  intros ->. simpl. repeat split.
Qed.

End MoreConnectorFacts.

(** X13. [Open] and [Next] together: when the endpoint answers 200 with a
    body of valid records and keepalive markers, [Open] returns a stream and
    no error, and successive calls of [Next] on that stream return every
    record of the body, in order and with its delimiter, and then the error
    that ends the body. *)
Theorem Open_then_Next_returns_records {Client Credentials : Type}
    (SignParam : Client -> Credentials -> string -> string -> Values -> Values)
    (PostForm : string -> Values -> Response Wire.t + error)
    (c : Client) (a : Credentials) (urlStr : string) (params : nat) (h : store)
    (items : list Item) (f : error) (ce : option error) (fuel : nat) :
  PostForm urlStr (request_form SignParam c a urlStr params h)
  = inl (mkResponse 200 (Wire.mk (wire_of items) f ce)) →
  Forall valid_item items →
  (length items < fuel)%nat →
  let r := Open SignParam PostForm c a urlStr params h in
  ret_err r = None ∧
  ∃ ts ts', ret_stream r = Some ts ∧
            Next_n fuel (S (length (records items))) ts
            = Done ((with_delimiter <$> records items) ++ [([], Some f)]) ts' ∧
            Err ts' = Some f.
Proof.
  intros HP Hv Hf r. subst r.
  destruct (Open_status_200 SignParam PostForm c a urlStr params h _ HP eq_refl)
    as [Hs He].
  split; [exact He|].
  destruct (Next_n_items f ce items fuel
              (set_body (Some (Wire.mk (wire_of items) f ce)) new_Stream)
              Hv eq_refl eq_refl Hf) as (ts' & HN & He').
  eexists _, ts'. split; [exact Hs|]. split; [exact HN | exact He'].
Qed.

(** ** The text of an HTTPStatusError *)

Lemma pretty_N_go_no_space (x : N) : ∀ s, no_space s → no_space (pretty_N_go x s).
Proof.
  induction (N.lt_wf_0 x) as [x _ IH]; intros s Hs.
  assert (x = 0 ∨ 0 < x)%N as [->|Hx] by lia.
  - rewrite pretty_N_go_0. exact Hs.
  - rewrite pretty_N_go_step by exact Hx. apply IH.
    + apply N.div_lt; [exact Hx | reflexivity].
    + split; [|exact Hs]. unfold pretty_N_char. repeat case_match; discriminate.
Qed.

Lemma pretty_Z_no_space (x : Z) : no_space (pretty x).
Proof.
  assert (HN : ∀ n : N, no_space (pretty n)).
  { intros n. unfold pretty, pretty_N. case_decide.
    - simpl. split; [discriminate | exact I].
    - apply pretty_N_go_no_space. exact I. }
  destruct x as [|p|p]; unfold pretty, pretty_Z.
  - simpl. split; [discriminate | exact I].
  - apply HN.
  - simpl. split; [discriminate | apply HN].
Qed.

Lemma append_space_inj (s1 s2 m1 m2 : string) :
  no_space s1 → no_space s2 →
  (s1 +:+ String " " m1 = s2 +:+ String " " m2)%string →
  s1 = s2 ∧ m1 = m2.
Proof.
  revert s2. induction s1 as [|c s1 IH]; intros [|c2 s2] H1 H2 H; simpl in *.
  - inversion H. auto.
  - inversion H; subst. destruct H2 as [Hc _]. congruence.
  - inversion H; subst. destruct H1 as [Hc _]. congruence.
  - inversion H; subst. destruct H1 as [_ H1], H2 as [_ H2].
    destruct (IH s2 H1 H2 ltac:(assumption)) as [-> ->]. auto.
Qed.

(** X14. The text of an [HTTPStatusError] determines the error: two errors
    with the same [Error()] text have the same status code and the same
    message. *)
Theorem HTTPStatusError_Error_inj (e1 e2 : HTTPStatusError) :
  HTTPStatusError_Error e1 = HTTPStatusError_Error e2 → e1 = e2.
Proof.
  destruct e1 as [c1 m1], e2 as [c2 m2]. unfold HTTPStatusError_Error. simpl.
  intros H. injection H as H.
  apply append_space_inj in H as [Hc Hm]; [|apply pretty_Z_no_space..].
  apply (inj pretty) in Hc. subst. reflexivity.
Qed.

(** ** Instances of the further properties *)

Lemma Next_returns_on_finite_body_witness :
  let w := Wire.mk (bytes "a" ++ [CR] ++ bytes "xyz") EOF None in
  let ts := set_body (Some w) new_Stream in
  body ts = Some w ∧ (length (Wire.pending w) < 6)%nat ∧
  ∃ r ts', Next 6 ts = Done r ts'.
Proof.
  intros w ts.
  assert (Hf : (length (Wire.pending w) < 6)%nat) by (simpl; lia).
  split; [reflexivity|]. split; [exact Hf|].
  exact (Next_returns_on_finite_body 6 ts w eq_refl Hf).
Defined.

Lemma Next_returns_whole_lines_witness :
  let w := Wire.mk ([CR] ++ bytes "a" ++ [CR] ++ bytes "hello" ++ [CR]
                    ++ bytes "rest") EOF None in
  let ts := set_body (Some w) new_Stream in
  let ts' := mkStream 0 0 (Some (Wire.mk (bytes "rest") EOF None)) None
               [EvReadSlice; EvReadSlice; EvReadSlice] in
  body ts = Some w ∧
  Next 3 ts = Done (bytes "hello" ++ [CR], None) ts' ∧
  ∃ r ks w',
    bytes "hello" ++ [CR] = r ++ [CR] ∧ (CR ∉ r) ∧ 2 <= len r ∧
    len (bytes "hello" ++ [CR]) <= Wire.bufSize ∧
    body ts' = Some w' ∧
    Wire.pending w = concat ks ++ (bytes "hello" ++ [CR]) ++ Wire.pending w' ∧
    Forall (λ k, len k <= 2 ∧ ∃ r', k = r' ++ [CR] ∧ (CR ∉ r')) ks.
Proof.
  intros w ts ts'.
  assert (HN : Next 3 ts = Done (bytes "hello" ++ [CR], None) ts') by reflexivity.
  split; [reflexivity|]. split; [exact HN|].
  exact (Next_returns_whole_lines 3 ts ts' w _ eq_refl HN).
Defined.

Lemma failed_stream_was_closed_witness :
  let ts := Wire.stream (bytes "hello" ++ [CR]) EOF in
  let ts' := mkStream 0 0 (Some (Wire.mk [] EOF None)) (Some EOF)
               [EvClose; EvReadSlice; EvReadSlice] in
  let rs := [RetNext (bytes "hello" ++ [CR]) None;
             RetUnmarshalNext [] (Some EOF); RetErr (Some EOF)] in
  err ts = None ∧
  calls brace_Unmarshal [OpNext 1; OpUnmarshalNext 1 []; OpErr] ts = Done rs ts' ∧
  Err ts' = Some EOF ∧
  (count_close (trace ts) < count_close (trace ts'))%nat ∧
  (RetNext [] (Some EOF) ∈ rs ∨ ∃ d, RetUnmarshalNext d (Some EOF) ∈ rs).
Proof.
  intros ts ts' rs.
  assert (Hc : calls brace_Unmarshal [OpNext 1; OpUnmarshalNext 1 []; OpErr] ts
               = Done rs ts') by reflexivity.
  split; [reflexivity|]. split; [exact Hc|]. split; [reflexivity|].
  exact (failed_stream_was_closed brace_Unmarshal _ ts ts' rs EOF eq_refl Hc eq_refl).
Defined.

Lemma Next_errors_are_the_sticky_error_witness :
  let ts := Wire.stream [] EOF in
  let rs := [RetNext [] (Some EOF); RetNext [] (Some EOF)] in
  err ts = None ∧
  calls brace_Unmarshal [OpNext 1; OpNext 1] ts = Done rs failed_stream ∧
  RetNext [] (Some EOF) ∈ rs ∧
  Err failed_stream = Some EOF.
Proof.
  intros ts rs.
  assert (Hc : calls brace_Unmarshal [OpNext 1; OpNext 1] ts = Done rs failed_stream)
    by reflexivity.
  assert (Hin : RetNext [] (Some EOF) ∈ rs) by (apply elem_of_cons; left; reflexivity).
  split; [reflexivity|]. split; [exact Hc|]. split; [exact Hin|].
  exact (proj2 (Next_errors_are_the_sticky_error brace_Unmarshal _ ts failed_stream
                  rs [] EOF eq_refl Hc Hin)).
Defined.

Lemma Next_success_keeps_stream_open_witness :
  let ts := Wire.stream ([CR] ++ bytes "hello" ++ [CR]) EOF in
  let ts' := mkStream 0 0 (Some (Wire.mk [] EOF None)) None
               [EvReadSlice; EvReadSlice] in
  Next 2 ts = Done (bytes "hello" ++ [CR], None) ts' ∧
  Err ts' = None ∧ is_Some (body ts') ∧
  count_close (trace ts') = 0%nat ∧
  (count_read (trace ts) < count_read (trace ts'))%nat.
Proof.
  intros ts ts'.
  assert (HN : Next 2 ts = Done (bytes "hello" ++ [CR], None) ts') by reflexivity.
  split; [exact HN|].
  exact (proj2 (Next_success_keeps_stream_open 2 ts ts' _ HN)).
Defined.

Lemma Close_is_repeated_witness :
  let ts := Wire.stream (bytes "hello" ++ [CR]) EOF in
  err ts = None ∧ is_Some (body ts) ∧
  ∃ rs ts', calls brace_Unmarshal [OpClose; OpClose] ts = Done rs ts' ∧
            Err ts' = None ∧
            count_close (trace ts') = 2%nat ∧
            count_read (trace ts') = 0%nat.
Proof.
  intros ts.
  assert (Hb : is_Some (body ts)) by (eexists; reflexivity).
  split; [reflexivity|]. split; [exact Hb|].
  destruct (Close_is_repeated brace_Unmarshal 2 ts eq_refl Hb)
    as (rs & ts' & Hc & _ & He & _ & Hcc & Hcr & _).
  exists rs, ts'. split; [exact Hc|]. split; [exact He|].
  split; [exact Hcc | exact Hcr].
Defined.

Lemma oversized_line_is_fatal_witness :
  let w := Wire.mk (replicate (Z.to_nat 8192) "a"%byte ++ [CR]) EOF None in
  let ts := set_body (Some w) new_Stream in
  err ts = None ∧ body ts = Some w ∧ skip_keepalives 0 w = Some w ∧
  (CR ∉ take (Z.to_nat Wire.bufSize) (Wire.pending w)) ∧
  Wire.bufSize < len (Wire.pending w) ∧
  ∃ ts', Next 1 ts = Done ([], Some ErrBufferFull) ts' ∧
         Err ts' = Some ErrBufferFull ∧
         count_close (trace ts') = 1%nat.
Proof.
  intros w ts.
  assert (Hn : CR ∉ take (Z.to_nat Wire.bufSize) (Wire.pending w))
    by (apply (bool_decide_unpack _); vm_compute; exact I).
  assert (Hl : Wire.bufSize < len (Wire.pending w))
    by (apply Z.ltb_lt; vm_compute; reflexivity).
  split; [reflexivity|]. split; [reflexivity|]. split; [reflexivity|].
  split; [exact Hn|]. split; [exact Hl|].
  exact (oversized_line_is_fatal 0 0 ts w w eq_refl eq_refl eq_refl Hn Hl).
Defined.

Lemma unterminated_tail_is_dropped_witness :
  let w := Wire.mk ([CR] ++ bytes "{partial") EOF None in
  let w1 := Wire.mk (bytes "{partial") EOF None in
  let ts := set_body (Some w) new_Stream in
  err ts = None ∧ body ts = Some w ∧ skip_keepalives 1 w = Some w1 ∧
  (CR ∉ Wire.pending w1) ∧ len (Wire.pending w1) < Wire.bufSize ∧
  ∃ ts', Next 2 ts = Done ([], Some EOF) ts' ∧
         Err ts' = Some EOF ∧
         body ts' = Some (Wire.mk [] EOF None) ∧
         (∀ fuel, Next fuel ts' = Done ([], Some EOF) ts').
Proof.
  intros w w1 ts.
  assert (Hs : skip_keepalives 1 w = Some w1) by reflexivity.
  assert (Hn : CR ∉ Wire.pending w1)
    by (apply (bool_decide_unpack _); vm_compute; exact I).
  assert (Hl : len (Wire.pending w1) < Wire.bufSize) by reflexivity.
  split; [reflexivity|]. split; [reflexivity|]. split; [exact Hs|].
  split; [exact Hn|]. split; [exact Hl|].
  exact (unterminated_tail_is_dropped 1 0 ts w w1 eq_refl eq_refl Hs Hn Hl).
Defined.

Lemma UnmarshalNext_decodes_records_in_order_witness :
  let items := [Rec (json_id "1"); Keepalive [CR]; Rec (bytes "not-json");
                Keepalive ["010"%byte; CR]; Rec (json_id "2")] in
  let ts := Wire.stream (wire_of items) EOF in
  Forall valid_item items ∧
  body ts = Some (Wire.mk (wire_of items) EOF None) ∧ err ts = None ∧
  (length items < 6)%nat ∧
  length [[]; []; [] : list byte] = length (records items) ∧
  ∃ ts', calls brace_Unmarshal (OpUnmarshalNext 6 <$> [[]; []; []]) ts
         = Done [RetUnmarshalNext (json_id "1" ++ [CR]) None;
                 RetUnmarshalNext [] (Some (ErrExternal "invalid character"));
                 RetUnmarshalNext (json_id "2" ++ [CR]) None] ts'
         ∧ Err ts' = None.
Proof.
  intros items ts.
  assert (Hv : Forall valid_item items) by valid_items.
  assert (Hf : (length items < 6)%nat) by (simpl; lia).
  split; [exact Hv|]. split; [reflexivity|]. split; [reflexivity|].
  split; [exact Hf|]. split; [reflexivity|].
  exact (UnmarshalNext_decodes_records_in_order brace_Unmarshal items EOF None 6
           [[]; []; []] ts Hv eq_refl eq_refl Hf eq_refl).
Defined.

Lemma documented_loop_closes_once_witness :
  let items := [Keepalive [CR]; Rec (json_id "1"); Rec (bytes "not-json");
                Keepalive [CR]; Rec (json_id "2")] in
  let ts := Wire.stream (wire_of items) EOF in
  Forall valid_item items ∧
  body ts = Some (Wire.mk (wire_of items) EOF None) ∧ err ts = None ∧
  (length items < 6)%nat ∧
  ∃ ts', consume brace_Unmarshal 5 6 [] [] ts
         = Done ([json_id "1" ++ [CR]; json_id "2" ++ [CR]], Some EOF) ts'
         ∧ Err ts' = Some EOF
         ∧ count_close (trace ts') = 1%nat.
Proof.
  intros items ts.
  assert (Hv : Forall valid_item items) by valid_items.
  assert (Hf : (length items < 6)%nat) by (simpl; lia).
  split; [exact Hv|]. split; [reflexivity|]. split; [reflexivity|].
  split; [exact Hf|].
  exact (documented_loop_closes_once brace_Unmarshal items EOF None 6 0 [] ts
           Hv eq_refl eq_refl Hf).
Defined.

Lemma Open_transport_failure_witness :
  let refused := ErrExternal "dial tcp: connection refused" in
  let post : string → Values → Response Wire.t + error := λ _ _, inr refused in
  let r := Open example_SignParam post tt tt example_url 0%nat example_store in
  post example_url (request_form example_SignParam tt tt example_url 0%nat
                      example_store) = inr refused ∧
  ret_stream r = None ∧ ret_err r = Some refused ∧
  body (ts_final r) = None ∧ trace (ts_final r) = [] ∧
  Err (ts_final r) = Some refused.
Proof.
  intros refused post r.
  split; [reflexivity|].
  exact (Open_transport_failure example_SignParam post tt tt example_url 0%nat
           example_store refused eq_refl).
Defined.

Lemma Open_then_Next_returns_records_witness :
  let items := [Keepalive [CR]; Keepalive [CR]; Rec (json_text "hello");
                Keepalive [CR]; Keepalive [CR]; Rec (json_text "world")] in
  let post := endpoint 200 (wire_of items) in
  let r := Open example_SignParam post tt tt example_url 0%nat example_store in
  post example_url (request_form example_SignParam tt tt example_url 0%nat
                      example_store)
  = inl (mkResponse 200 (Wire.mk (wire_of items) EOF None)) ∧
  Forall valid_item items ∧ (length items < 7)%nat ∧
  ret_err r = None ∧
  ∃ ts ts', ret_stream r = Some ts ∧
            Next_n 7 3 ts
            = Done [(json_text "hello" ++ [CR], None);
                    (json_text "world" ++ [CR], None);
                    ([], Some EOF)] ts' ∧
            Err ts' = Some EOF.
Proof.
  intros items post r.
  assert (Hv : Forall valid_item items) by valid_items.
  assert (Hf : (length items < 7)%nat) by (simpl; lia).
  split; [reflexivity|]. split; [exact Hv|]. split; [exact Hf|].
  exact (Open_then_Next_returns_records example_SignParam post tt tt example_url
           0%nat example_store items EOF None 7 eq_refl Hv Hf).
Defined.

Lemma HTTPStatusError_Error_inj_witness :
  let e1 := mkHTTPStatusError 503 "rate limited" in
  let e2 := mkHTTPStatusError (500 + 3) ("rate" +:+ " limited") in
  HTTPStatusError_Error e1 = HTTPStatusError_Error e2 ∧ e1 = e2.
Proof.
  intros e1 e2.
  assert (H : HTTPStatusError_Error e1 = HTTPStatusError_Error e2)
    by (vm_compute; reflexivity).
  split; [exact H|]. exact (HTTPStatusError_Error_inj e1 e2 H).
Defined.
